(** * memelink-cli: the Memegen text codec and the retrying HTTP transport

    A shallow embedding of two packages of the repository:

    - [encoding] (Encode, Decode): pure string rewriting built from
      successive calls of Go's [strings.ReplaceAll];
    - [api] (shouldRetry, retryTransport.RoundTrip,
      loggingTransport.RoundTrip): the transport decorators, modelled with
      explicit oracles for the wrapped transport, the request context and
      the body factory, and an event trace for their side effects.

    A Go string is a sequence of bytes; it is modelled by [string], whose
    characters ([ascii]) are exactly the 256 byte values. *)

From Stdlib Require Import Bool Arith List Ascii String ZArith Lia DecimalString.
Import ListNotations.

Local Open Scope string_scope.

(* ------------------------------------------------------------------ *)
(** ** Byte constants used by the codec *)

Module Bytes.

Definition NUL : ascii := "000"%char.        (* \x00 *)
Definition SOH : ascii := "001"%char.        (* \x01 *)
Definition LF : ascii := "010"%char.         (* \n *)
Definition SPACE : ascii := " "%char.
Definition DQUOTE : ascii := "034"%char.     (* the double quote *)
Definition APOS : ascii := "'"%char.
Definition DASH : ascii := "-"%char.
Definition UNDERSCORE : ascii := "_"%char.
Definition TILDE : ascii := "~"%char.
Definition BACKSLASH : ascii := "\"%char.

(** A one-byte string. *)
Definition str1 (c : ascii) : string := String c EmptyString.

(** All 256 byte values, for properties settled by enumeration. *)
Definition all_bytes : list ascii := map ascii_of_nat (seq 0 256).

End Bytes.
Import Bytes.

(* ------------------------------------------------------------------ *)
(** ** Go's [strings] package, as far as the codec uses it *)

Module strings.

(** The scan behind [strings.ReplaceAll]: left to right, the leftmost
    occurrence of [old] is replaced by [new] and the scan goes on after
    it, so the occurrences replaced do not overlap.  [skip] counts the
    bytes of a matched occurrence still to be passed over. *)
Fixpoint replace_scan (old new : string) (skip : nat) (s : string) : string :=
  match s with
  | EmptyString => EmptyString
  | String c s' =>
      match skip with
      | S k => replace_scan old new k s'
      | O =>
          if prefix old s
          then new ++ replace_scan old new (length old - 1) s'
          else String c (replace_scan old new 0 s')
      end
  end.

(** [strings.ReplaceAll(s, old, new)].  Every call of the codec passes a
    non-empty literal for [old].  For an empty [old] Go inserts [new] at
    every rune boundary, which depends on the UTF-8 decoding of [s]; that
    case is not reached by the codec and is left as the identity here. *)
Definition ReplaceAll (s old new : string) : string :=
  match old with
  | EmptyString => s
  | String _ _ => replace_scan old new 0 s
  end.

End strings.

(* ------------------------------------------------------------------ *)
(** ** Package encoding *)

Module encoding.

Definition Encode (text : string) : string :=
  (* Step 1: escape literal underscores and dashes. *)
  let text := strings.ReplaceAll text "_" "__" in
  let text := strings.ReplaceAll text "-" "--" in
  (* Step 2: spaces become single underscores. *)
  let text := strings.ReplaceAll text " " "_" in
  (* Step 3: special characters. *)
  let text := strings.ReplaceAll text "?" "~q" in
  let text := strings.ReplaceAll text "%" "~p" in
  let text := strings.ReplaceAll text "#" "~h" in
  let text := strings.ReplaceAll text (str1 DQUOTE) "''" in
  let text := strings.ReplaceAll text "/" "~s" in
  let text := strings.ReplaceAll text (str1 BACKSLASH) "~b" in
  let text := strings.ReplaceAll text (str1 LF) "~n" in
  let text := strings.ReplaceAll text "&" "~a" in
  let text := strings.ReplaceAll text "<" "~l" in
  let text := strings.ReplaceAll text ">" "~g" in
  text.

Definition Decode (text : string) : string :=
  (* Step 1: tilde-encoded specials and quotes. *)
  let text := strings.ReplaceAll text "~q" "?" in
  let text := strings.ReplaceAll text "~p" "%" in
  let text := strings.ReplaceAll text "~h" "#" in
  let text := strings.ReplaceAll text "~a" "&" in
  let text := strings.ReplaceAll text "~l" "<" in
  let text := strings.ReplaceAll text "~g" ">" in
  let text := strings.ReplaceAll text "~b" (str1 BACKSLASH) in
  let text := strings.ReplaceAll text "~s" "/" in
  let text := strings.ReplaceAll text "~n" (str1 LF) in
  let text := strings.ReplaceAll text "''" (str1 DQUOTE) in
  (* Step 2: underscores through the placeholder \x00. *)
  let text := strings.ReplaceAll text "__" (str1 NUL) in
  let text := strings.ReplaceAll text "_" " " in
  let text := strings.ReplaceAll text (str1 NUL) "_" in
  (* Step 3: dashes through the placeholder \x01. *)
  let text := strings.ReplaceAll text "--" (str1 SOH) in
  let text := strings.ReplaceAll text (str1 SOH) "-" in
  text.

(** The UTF-8 bytes of a code point from U+0800 to U+FFFF: a Go string
    literal holds the UTF-8 encoding of its \u escapes. *)
Definition utf8_3 (b1 b2 b3 : ascii) : string :=
  String b1 (String b2 (String b3 EmptyString)).

Definition RIGHT_SINGLE_QUOTE : string := utf8_3 "226" "128" "153".  (* U+2019 *)
Definition LEFT_DOUBLE_QUOTE : string := utf8_3 "226" "128" "156".   (* U+201C *)
Definition RIGHT_DOUBLE_QUOTE : string := utf8_3 "226" "128" "157".  (* U+201D *)
Definition EN_DASH : string := utf8_3 "226" "128" "147".             (* U+2013 *)
Definition EM_DASH : string := utf8_3 "226" "128" "148".             (* U+2014 *)

Definition NormalizeQuotes (text : string) : string :=
  (* Right single quote / apostrophe (U+2019). *)
  let text := strings.ReplaceAll text RIGHT_SINGLE_QUOTE "'" in
  (* Left double quote (U+201C). *)
  let text := strings.ReplaceAll text LEFT_DOUBLE_QUOTE (str1 DQUOTE) in
  (* Right double quote (U+201D). *)
  let text := strings.ReplaceAll text RIGHT_DOUBLE_QUOTE (str1 DQUOTE) in
  (* En dash (U+2013) -> single ASCII dash. *)
  let text := strings.ReplaceAll text EN_DASH "-" in
  (* Em dash (U+2014) -> double ASCII dash. *)
  let text := strings.ReplaceAll text EM_DASH "--" in
  text.

End encoding.
Import encoding.

(* ------------------------------------------------------------------ *)
(** ** The codec as a rule table, and what a pass does to blocks *)

Module Codec.

(** One call [strings.ReplaceAll(text, old, new)]. *)
Definition rule : Type := (string * string)%type.

Definition apply_rule (text : string) (r : rule) : string :=
  strings.ReplaceAll text (fst r) (snd r).

Definition apply_rules (rules : list rule) (text : string) : string :=
  fold_left apply_rule rules text.

(** The calls of [Encode], in the order of the source. *)
Definition encode_rules : list rule :=
  [ ("_", "__"); ("-", "--"); (" ", "_");
    ("?", "~q"); ("%", "~p"); ("#", "~h"); (str1 DQUOTE, "''");
    ("/", "~s"); (str1 BACKSLASH, "~b"); (str1 LF, "~n");
    ("&", "~a"); ("<", "~l"); (">", "~g") ].

(** The calls of [Decode], in the order of the source. *)
Definition decode_rules : list rule :=
  [ ("~q", "?"); ("~p", "%"); ("~h", "#"); ("~a", "&"); ("~l", "<");
    ("~g", ">"); ("~b", str1 BACKSLASH); ("~s", "/"); ("~n", str1 LF);
    ("''", str1 DQUOTE);
    ("__", str1 NUL); ("_", " "); (str1 NUL, "_");
    ("--", str1 SOH); (str1 SOH, "-") ].

(** The text obtained by replacing every byte [c] of [s] by [f c]. *)
Fixpoint concat_map (f : ascii -> string) (s : string) : string :=
  match s with
  | EmptyString => EmptyString
  | String c s' => f c ++ concat_map f s'
  end.

(** [starts b y]: the text [y] begins with the byte [b]. *)
Definition starts (b : ascii) (y : string) : bool :=
  match y with
  | EmptyString => false
  | String c _ => Ascii.eqb c b
  end.

Definition starts_or_empty (b : ascii) (y : string) : bool :=
  match y with
  | EmptyString => true
  | String c _ => Ascii.eqb c b
  end.

(** [dangle a b skip x]: the scan for the two-byte pattern [a b] reaches the
    end of [x] on an unmatched last byte [a], so that a following [b] would
    complete an occurrence across the end of [x].  It follows the scan of
    [strings.replace_scan] step by step. *)
Fixpoint dangle (a b : ascii) (skip : nat) (x : string) : bool :=
  match x with
  | EmptyString => false
  | String c x' =>
      match skip with
      | S k => dangle a b k x'
      | O =>
          if prefix (String a (String b EmptyString)) x
          then dangle a b 1 x'
          else match x' with
               | EmptyString => Ascii.eqb c a
               | String _ _ => dangle a b 0 x'
               end
      end
  end.

(** A pass with pattern [old] rewrites the blocks [x] and [y] of [x ++ y]
    independently of each other. *)
Definition step_ok (old x y : string) : bool :=
  match old with
  | String a EmptyString => true
  | String a (String b EmptyString) =>
      negb (dangle a b 0 x && starts_or_empty b y)
  | _ => false
  end.

(** All passes of [rules] rewrite the neighbouring blocks [x] and [y]
    independently. *)
Fixpoint pair_ok (rules : list rule) (x y : string) : bool :=
  match rules with
  | [] => true
  | r :: rs =>
      step_ok (fst r) x y && pair_ok rs (apply_rule x r) (apply_rule y r)
  end.

(** [adjacent_all P s]: [P c d] holds of every byte [c] of [s] and the byte
    [d] that follows it. *)
Fixpoint adjacent_all (P : ascii -> ascii -> bool) (s : string) : bool :=
  match s with
  | EmptyString => true
  | String c s' =>
      match s' with
      | EmptyString => true
      | String d _ => P c d
      end && adjacent_all P s'
  end.

Fixpoint all_bytes_of (P : ascii -> bool) (s : string) : bool :=
  match s with
  | EmptyString => true
  | String c s' => P c && all_bytes_of P s'
  end.

(** [contains s sub] is Go's [strings.Contains(s, sub)]. *)
Fixpoint contains (s sub : string) : bool :=
  prefix sub s ||
  match s with
  | EmptyString => false
  | String _ s' => contains s' sub
  end.

(** [sep_ok c old]: the byte [c] is no part of the pattern [old], a pattern
    of one or two bytes. *)
Definition sep_ok (c : ascii) (old : string) : bool :=
  match old with
  | String a EmptyString => negb (Ascii.eqb c a)
  | String a (String b EmptyString) =>
      negb (Ascii.eqb c a) && negb (Ascii.eqb c b)
  | _ => false
  end.

(** The two placeholder bytes of [Decode]. *)
Definition placeholder (c : ascii) : bool :=
  Ascii.eqb c NUL || Ascii.eqb c SOH.

(** The letters that follow a tilde in an escape of [Encode]. *)
Definition escape_letter (c : ascii) : bool :=
  existsb (Ascii.eqb c)
    ["q"; "p"; "h"; "a"; "l"; "g"; "b"; "s"; "n"]%char.

(** [clash c d]: the byte [c] immediately followed by the byte [d] is read
    back differently by [Decode]: a space before a space or an underscore,
    an apostrophe before an apostrophe or a double quote, a tilde before an
    escape letter. *)
Definition clash (c d : ascii) : bool :=
  (Ascii.eqb c SPACE && (Ascii.eqb d SPACE || Ascii.eqb d UNDERSCORE))
  || (Ascii.eqb c APOS && (Ascii.eqb d APOS || Ascii.eqb d DQUOTE))
  || (Ascii.eqb c TILDE && escape_letter d).

(** The texts that [Encode] followed by [Decode] gives back unchanged. *)
Definition roundtrip_safe (s : string) : bool :=
  all_bytes_of (fun c => negb (placeholder c)) s
  && adjacent_all (fun c d => negb (clash c d)) s.

(** The calls of [NormalizeQuotes], in the order of the source. *)
Definition normalize_rules : list rule :=
  [ (RIGHT_SINGLE_QUOTE, "'"); (LEFT_DOUBLE_QUOTE, str1 DQUOTE);
    (RIGHT_DOUBLE_QUOTE, str1 DQUOTE); (EN_DASH, "-"); (EM_DASH, "--") ].

(** [byte_in c s]: the byte [c] occurs in [s]. *)
Fixpoint byte_in (c : ascii) (s : string) : bool :=
  match s with
  | EmptyString => false
  | String d s' => Ascii.eqb c d || byte_in c s'
  end.

(** [disjoint x y]: no byte of [x] occurs in [y]. *)
Definition disjoint (x y : string) : bool :=
  all_bytes_of (fun c => negb (byte_in c y)) x.

(** [nonempty s]: the text [s] has a first byte. *)
Definition nonempty (s : string) : bool :=
  match s with
  | EmptyString => false
  | String _ _ => true
  end.

(** [keeps_out patterns r]: the replacement of the rule [r] is not empty and
    shares no byte with any of [patterns]; its pattern is not empty. *)
Definition keeps_out (patterns : list string) (r : rule) : bool :=
  nonempty (fst r) && nonempty (snd r)
  && forallb (disjoint (snd r)) patterns.

(** [shrinking r]: the replacement of the rule [r] is not longer than its
    pattern. *)
Definition shrinking (r : rule) : bool :=
  Nat.leb (length (snd r)) (length (fst r)).

(** The bytes that [Encode] rewrites in steps 2 and 3: the space and the ten
    special characters. *)
Definition reserved (c : ascii) : bool :=
  existsb (Ascii.eqb c)
    [SPACE; "?"; "%"; "#"; DQUOTE; "/"; BACKSLASH; LF; "&"; "<"; ">"]%char.

(** What [Decode] makes of a byte that [Encode] left alone or escaped: the
    byte itself, but for the two placeholders. *)
Definition decoded_byte (c : ascii) : string :=
  if Ascii.eqb c NUL then "_"
  else if Ascii.eqb c SOH then "-"
  else str1 c.

End Codec.
Import Codec.

(* ------------------------------------------------------------------ *)
(** ** Go values used by package api *)

Local Open Scope Z_scope.

(** Go's [int] and [time.Duration] are 64-bit signed integers: arithmetic
    wraps around. *)
Module GoInt.

Definition wrap (z : Z) : Z := (z + 2 ^ 63) mod 2 ^ 64 - 2 ^ 63.

Definition add (a b : Z) : Z := wrap (a + b).
Definition mul (a b : Z) : Z := wrap (a * b).

(** [1 << n] at a 64-bit signed type, for a shift count [n >= 0]. *)
Definition shl1 (n : nat) : Z := wrap (Z.shiftl 1 (Z.of_nat n)).

End GoInt.

(** Error values.  [errorString] stands for an error of the environment
    (errors.New); [wrapError] is what [fmt.Errorf] builds for a format with
    one [%w] verb: the formatted message and the wrapped error. *)
Inductive error : Type :=
| errorString (msg : string)
| wrapError (msg : string) (err : error).

Module errors.

(** The method [Error()]. *)
Definition Error (e : error) : string :=
  match e with
  | errorString msg => msg
  | wrapError msg _ => msg
  end.

Definition Unwrap (e : error) : option error :=
  match e with
  | errorString _ => None
  | wrapError _ err => Some err
  end.

(** [errors.Is(e, target)]: [target] is on the chain of [e]. *)
Inductive Is : error -> error -> Prop :=
| Is_here : forall e, Is e e
| Is_wrapped : forall msg e target, Is e target -> Is (wrapError msg e) target.

End errors.

Module fmt.

(** [fmt.Errorf(prefix + "%w", err)] for a literal [prefix]. *)
Definition Errorf_w (prefix : string) (err : error) : error :=
  wrapError (prefix ++ errors.Error err)%string err.

End fmt.

Module context.

Definition Canceled : error := errorString "context canceled".
Definition DeadlineExceeded : error := errorString "context deadline exceeded".

(** A request context, seen through the one place where the transport
    observes it: the select statement that races [ctx.Done()] against
    [time.After(delay)] after attempt [attempt].  [Some e] means that
    [Done] is received first and that [ctx.Err()] is [e]; [None] means that
    the timer fires first. *)
Record Context : Type := { select_done : nat -> Z -> option error }.

(** [context.Background()] is never cancelled. *)
Definition Background : Context := {| select_done := fun _ _ => None |}.

End context.

Module http.

Definition StatusTooManyRequests : Z := 429.
Definition StatusInternalServerError : Z := 500.
Definition StatusGatewayTimeout : Z := 504.

(** A body stream, known by its identity. *)
Definition ReadCloser : Type := nat.

Module Response.
Record t : Type := { StatusCode : Z; Body : ReadCloser }.
End Response.

Module Request.
(** [GetBody], when present, is a function with effects: its result at
    its [n]-th call is [get n], a pair (body, error) as in Go. *)
Record t : Type :=
  { Method : string;
    URL : string;
    Body : option ReadCloser;
    GetBody : option (nat -> option ReadCloser * option error);
    Context : context.Context }.

Definition with_Body (req : t) (body : option ReadCloser) : t :=
  {| Method := Method req; URL := URL req; Body := body;
     GetBody := GetBody req; Context := Context req |}.
End Request.

(** What a call of [RoundTrip] returns: the pair (response, error), either
    of which may be nil. *)
Definition Result : Type := (option Response.t * option error)%type.

(** The interface [http.RoundTripper], for a transport with effects: the
    answer to the [n]-th call made to it, counted from 0. *)
Definition RoundTripper : Type := nat -> Request.t -> Result.

End http.

(* ------------------------------------------------------------------ *)
(** ** Package api: the transports *)

Module api.

Import http.

(** How a call ends: it returns, or it panics on a nil response that comes
    with a nil error. *)
Inductive outcome : Type :=
| Return (res : Result)
| Panic.

(** The effects of [retryTransport.RoundTrip], in the order they happen. *)
Inductive event : Type :=
| EvGetBody (attempt : nat)
| EvRoundTrip (attempt : nat) (req : Request.t) (res : Result)
| EvClose (attempt : nat) (body : ReadCloser)
| EvTimer (attempt : nat) (delay : Z)
| EvDone (attempt : nat) (delay : Z) (err : error).

Definition shouldRetry (statusCode : Z) : bool :=
  (statusCode =? StatusTooManyRequests)
  || ((statusCode >=? StatusInternalServerError)
      && (statusCode <=? StatusGatewayTimeout)).

Module retryTransport.

Record t : Type :=
  { base : RoundTripper;
    maxRetries : Z;
    baseDelay : Z }.

(** The first statement of the loop body: when the request has a body
    and a body factory, the body is replaced by a fresh one.  The result
    is the error of [GetBody], or the request to send and the effects. *)
Definition clone_body (attempt : nat) (req : Request.t)
    : error + (Request.t * list event) :=
  match Request.Body req, Request.GetBody req with
  | Some _, Some get =>
      match get attempt with
      | (_, Some bodyErr) => inl bodyErr
      | (body, None) => inr (Request.with_Body req body, [EvGetBody attempt])
      end
  | _, _ => inr (req, [])
  end.

(** [delay := t.baseDelay * (1 << attempt)] at type [time.Duration]. *)
Definition delay (tr : t) (attempt : nat) : Z :=
  GoInt.mul (baseDelay tr) (GoInt.shl1 attempt).

(** The loop, for the [n] iterations that remain, at iteration [attempt];
    [resp] is the variable [resp] of the source.  Each iteration calls the
    base transport at most once, so the call of iteration [attempt] is the
    call number [attempt] of this [RoundTrip]; the same holds of [GetBody]
    and of the select statement.  The result is the outcome and the effects
    in the order they happen. *)
Fixpoint attempts (tr : t) (n attempt : nat) (req : Request.t)
    (resp : option Response.t) : outcome * list event :=
  match n with
  | O => (Return (resp, None), [])
  | S n' =>
      match clone_body attempt req with
      | inl bodyErr =>
          (Return (None, Some (fmt.Errorf_w "cloning request body: " bodyErr)),
           [EvGetBody attempt])
      | inr (req, evs) =>
          let res := base tr attempt req in
          match res with
          | (_, Some err) =>
              (Return (None, Some (fmt.Errorf_w "round trip: " err)),
               evs ++ [EvRoundTrip attempt req res])
          | (None, None) => (Panic, evs ++ [EvRoundTrip attempt req res])
          | (Some r, None) =>
              if negb (shouldRetry (Response.StatusCode r))
              then (Return (Some r, None), evs ++ [EvRoundTrip attempt req res])
              else if Z.of_nat attempt <? maxRetries tr
              then
                (* Close response body before retry. *)
                let close := EvClose attempt (Response.Body r) in
                match context.select_done (Request.Context req) attempt
                        (delay tr attempt) with
                | Some ctxErr =>
                    (Return (None, Some (fmt.Errorf_w "retry wait: " ctxErr)),
                     evs ++ [EvRoundTrip attempt req res; close;
                             EvDone attempt (delay tr attempt) ctxErr])
                | None =>
                    let (out, rest) := attempts tr n' (S attempt) req (Some r) in
                    (out,
                     evs ++ EvRoundTrip attempt req res :: close
                         :: EvTimer attempt (delay tr attempt) :: rest)
                end
              else
                let (out, rest) := attempts tr n' (S attempt) req (Some r) in
                (out, evs ++ EvRoundTrip attempt req res :: rest)
          end
      end
  end%list.

(** [for attempt := range t.maxRetries + 1]: no iteration when the bound
    is zero or negative. *)
Definition RoundTrip (tr : t) (req : Request.t) : outcome * list event :=
  attempts tr (Z.to_nat (GoInt.add (maxRetries tr) 1)) 0 req None.

End retryTransport.

(** The records that [slog.Debug] receives. *)
Inductive logRecord : Type :=
| LogRequest (method url : string)
| LogError (method url : string) (err : error) (duration : Z)
| LogResponse (method url : string) (status : Z) (duration : Z).

Module loggingTransport.

Record t : Type := { base : RoundTripper }.

(** [base] is called once (its call number 0).  [since] is the value that
    [time.Since(start)] returns when that call is over. *)
Definition RoundTrip (lt : t) (since : Z) (req : Request.t)
    : outcome * list logRecord :=
  let method := Request.Method req in
  let url := Request.URL req in
  let log := [LogRequest method url] in
  match base lt 0%nat req with
  | (_, Some err) =>
      (Return (None, Some (fmt.Errorf_w "logging round trip: " err)),
       (log ++ [LogError method url err since])%list)
  | (None, None) => (Panic, log)
  | (Some resp, None) =>
      (Return (Some resp, None),
       (log ++ [LogResponse method url (Response.StatusCode resp) since])%list)
  end.

End loggingTransport.

(** *** Reading a trace *)

Definition is_round_trip (ev : event) : bool :=
  match ev with
  | EvRoundTrip _ _ _ => true
  | _ => false
  end.

(** The number of calls made to the base transport. *)
Definition round_trips (evs : list event) : nat :=
  List.length (filter is_round_trip evs).

(** The last event of a trace, if any. *)
Definition last_event (evs : list event) : option event :=
  List.last (map Some evs) None.

(** [closed_first attempt body post]: in what follows a round trip, the
    close of its body comes before the next call of [GetBody] or of the base
    transport, and before the end. *)
Fixpoint closed_first (attempt : nat) (body : ReadCloser)
    (post : list event) : bool :=
  match post with
  | [] => false
  | EvClose k b :: _ => Nat.eqb k attempt && Nat.eqb b body
  | EvGetBody _ :: _ => false
  | EvRoundTrip _ _ _ :: _ => false
  | _ :: post' => closed_first attempt body post'
  end.

(** What the scoped-release discipline asks of a trace: the body of every
    response obtained (with a nil error) is closed before the next attempt
    begins and before the call returns. *)
Fixpoint bodies_released (evs : list event) : bool :=
  match evs with
  | [] => true
  | EvRoundTrip k _ (Some r, None) :: post =>
      closed_first k (Response.Body r) post && bodies_released post
  | _ :: post => bodies_released post
  end.

(** What the transport does about bodies.  A response that is returned is
    the answer of the last call of the base transport, every body before
    it has been released, and its own body is still open; on every other
    exit all bodies obtained have been released. *)
Definition scoped_release (out : outcome) (evs : list event) : Prop :=
  match out with
  | Return (Some r, None) =>
      (exists pre k rq,
          evs = (pre ++ [EvRoundTrip k rq (Some r, None)])%list
          /\ bodies_released pre = true)
      /\ bodies_released evs = false
  | Return (None, None) => evs = []
  | _ => bodies_released evs = true
  end.

(** [starts_attempt k ev]: the event [ev] is the first effect of iteration
    [k]: its call of [GetBody], or else its call of the base transport. *)
Definition starts_attempt (k : nat) (ev : event) : Prop :=
  ev = EvGetBody k \/ exists rq res, ev = EvRoundTrip k rq res.

(** The request's context is never done while the transport waits. *)
Definition never_done (req : Request.t) : Prop :=
  forall attempt delay,
    context.select_done (Request.Context req) attempt delay = None.

(** The request's body factory, if any, never fails. *)
Definition clone_ok (req : Request.t) : Prop :=
  forall get n, Request.GetBody req = Some get -> snd (get n) = None.

(** The runs of the loop of [retryTransport.RoundTrip], one constructor per
    way through the loop body: [Run tr n attempt req resp out evs] is a run
    of [n] remaining iterations from iteration [attempt]. *)
Inductive Run (tr : retryTransport.t)
  : nat -> nat -> Request.t -> option Response.t ->
    outcome -> list event -> Prop :=
| Run_exhausted : forall attempt req resp,
    Run tr 0 attempt req resp (Return (resp, None)) []
| Run_clone_error : forall n attempt req resp bodyErr,
    retryTransport.clone_body attempt req = inl bodyErr ->
    Run tr (S n) attempt req resp
      (Return (None, Some (fmt.Errorf_w "cloning request body: " bodyErr)))
      [EvGetBody attempt]
| Run_transport_error : forall n attempt req resp req1 evs r err,
    retryTransport.clone_body attempt req = inr (req1, evs) ->
    retryTransport.base tr attempt req1 = (r, Some err) ->
    Run tr (S n) attempt req resp
      (Return (None, Some (fmt.Errorf_w "round trip: " err)))
      (evs ++ [EvRoundTrip attempt req1 (r, Some err)])
| Run_nil_response : forall n attempt req resp req1 evs,
    retryTransport.clone_body attempt req = inr (req1, evs) ->
    retryTransport.base tr attempt req1 = (None, None) ->
    Run tr (S n) attempt req resp Panic
      (evs ++ [EvRoundTrip attempt req1 (None, None)])
| Run_final : forall n attempt req resp req1 evs r,
    retryTransport.clone_body attempt req = inr (req1, evs) ->
    retryTransport.base tr attempt req1 = (Some r, None) ->
    shouldRetry (Response.StatusCode r) = false ->
    Run tr (S n) attempt req resp (Return (Some r, None))
      (evs ++ [EvRoundTrip attempt req1 (Some r, None)])
| Run_cancelled : forall n attempt req resp req1 evs r ctxErr,
    retryTransport.clone_body attempt req = inr (req1, evs) ->
    retryTransport.base tr attempt req1 = (Some r, None) ->
    shouldRetry (Response.StatusCode r) = true ->
    Z.of_nat attempt < retryTransport.maxRetries tr ->
    context.select_done (Request.Context req1) attempt
      (retryTransport.delay tr attempt) = Some ctxErr ->
    Run tr (S n) attempt req resp
      (Return (None, Some (fmt.Errorf_w "retry wait: " ctxErr)))
      (evs ++ [EvRoundTrip attempt req1 (Some r, None);
               EvClose attempt (Response.Body r);
               EvDone attempt (retryTransport.delay tr attempt) ctxErr])
| Run_retry : forall n attempt req resp req1 evs r out rest,
    retryTransport.clone_body attempt req = inr (req1, evs) ->
    retryTransport.base tr attempt req1 = (Some r, None) ->
    shouldRetry (Response.StatusCode r) = true ->
    Z.of_nat attempt < retryTransport.maxRetries tr ->
    context.select_done (Request.Context req1) attempt
      (retryTransport.delay tr attempt) = None ->
    Run tr n (S attempt) req1 (Some r) out rest ->
    Run tr (S n) attempt req resp out
      (evs ++ EvRoundTrip attempt req1 (Some r, None)
           :: EvClose attempt (Response.Body r)
           :: EvTimer attempt (retryTransport.delay tr attempt) :: rest)
| Run_last : forall n attempt req resp req1 evs r out rest,
    retryTransport.clone_body attempt req = inr (req1, evs) ->
    retryTransport.base tr attempt req1 = (Some r, None) ->
    shouldRetry (Response.StatusCode r) = true ->
    retryTransport.maxRetries tr <= Z.of_nat attempt ->
    Run tr n (S attempt) req1 (Some r) out rest ->
    Run tr (S n) attempt req resp out
      (evs ++ EvRoundTrip attempt req1 (Some r, None) :: rest).

(** *** Errors of the API *)

Definition StatusNotFound : Z := 404.
Definition StatusRequestURITooLong : Z := 414.
Definition StatusUnsupportedMediaType : Z := 415.
Definition StatusUnprocessableEntity : Z := 422.

(** The verb [%d] of [fmt.Sprintf] at an integer: its decimal digits, after
    a minus sign when it is negative. *)
Definition Sprintf_d (n : Z) : string :=
  DecimalString.NilZero.string_of_int (Z.to_int n).

(** The struct [Error] of the API client. *)
Module Error.
Record t : Type := { StatusCode : Z; Message : string }.

End Error.

Definition statusMessage (code : Z) : string :=
  if code =? StatusNotFound then "template not found"
  else if code =? StatusRequestURITooLong
  then "text too long (max 200 chars per line)"
  else if code =? StatusUnsupportedMediaType then "could not download image URL"
  else if code =? StatusUnprocessableEntity
  then "invalid style or missing image URL"
  else if code =? StatusTooManyRequests then "rate limited, try again later"
  else ("unexpected error (HTTP " ++ Sprintf_d code ++ ")")%string.

(** [nil] is [None]. *)
Definition checkImageResponse (resp : Response.t) : option Error.t :=
  if (Response.StatusCode resp >=? 200) && (Response.StatusCode resp <? 300)
  then None
  else Some {| Error.StatusCode := Response.StatusCode resp;
               Error.Message := statusMessage (Response.StatusCode resp) |}.

(** [decode body] is what [json.NewDecoder(body).Decode(&apiErr)] leaves:
    [None] when it fails, and otherwise the field [apiErr.Error], which is
    empty when the body has no such field. *)
Definition checkJSONResponse (decode : ReadCloser -> option string)
    (resp : Response.t) : option Error.t :=
  if (Response.StatusCode resp >=? 200) && (Response.StatusCode resp <? 300)
  then None
  else
    match decode (Response.Body resp) with
    | Some (String c msg) =>
        Some {| Error.StatusCode := Response.StatusCode resp;
                Error.Message := String c msg |}
    | _ =>
        Some {| Error.StatusCode := Response.StatusCode resp;
                Error.Message := statusMessage (Response.StatusCode resp) |}
    end.

End api.
Import api.

(* ------------------------------------------------------------------ *)
(** ** Scenarios of the test suite, as environments of the model *)

Module Scenarios.

Import http.

(** A GET request without a body, under [context.Background()]. *)
Definition get_request : Request.t :=
  {| Request.Method := "GET"; Request.URL := "/retry";
     Request.Body := None; Request.GetBody := None;
     Request.Context := context.Background |}.

(** A POST request whose body factory hands out a fresh body at each
    call. *)
Definition post_request : Request.t :=
  {| Request.Method := "POST"; Request.URL := "/post";
     Request.Body := Some 0%nat;
     Request.GetBody := Some (fun n => (Some (S n), None));
     Request.Context := context.Background |}.

(** A GET request whose context is cancelled during the first backoff
    wait. *)
Definition cancelled_request : Request.t :=
  {| Request.Method := "GET"; Request.URL := "/cancel";
     Request.Body := None; Request.GetBody := None;
     Request.Context :=
       {| context.select_done := fun attempt _ =>
            if Nat.eqb attempt 0 then Some context.Canceled else None |} |}.

(** A GET request whose context is cancelled during the second backoff
    wait. *)
Definition cancelled_later_request : Request.t :=
  {| Request.Method := "GET"; Request.URL := "/cancel";
     Request.Body := None; Request.GetBody := None;
     Request.Context :=
       {| context.select_done := fun attempt _ =>
            if Nat.eqb attempt 1 then Some context.Canceled else None |} |}.

(** A server that answers every call with the same status. *)
Definition always (status : Z) : RoundTripper :=
  fun n _ => (Some {| Response.StatusCode := status; Response.Body := n |}, None).

(** A server that answers 500 once and whose connection is refused at the
    second call. *)
Definition refused_at_second : RoundTripper :=
  fun n req =>
    if Nat.eqb n 1 then (None, Some (errorString "connection refused"))
    else always 500 n req.

(** A transport that fails before any status is received. *)
Definition refusing : RoundTripper :=
  fun _ _ => (None, Some (errorString "connection refused")).

(** The transport of the test client: three retries. *)
Definition test_transport (server : RoundTripper) : retryTransport.t :=
  {| retryTransport.base := server;
     retryTransport.maxRetries := 3;
     retryTransport.baseDelay := 1000000 |}.

(** A POST request whose body factory fails at its second call. *)
Definition failing_body_request : Request.t :=
  {| Request.Method := "POST"; Request.URL := "/post";
     Request.Body := Some 0%nat;
     Request.GetBody :=
       Some (fun n => if Nat.eqb n 1
                      then (None, Some (errorString "body is gone"))
                      else (Some (S n), None));
     Request.Context := context.Background |}.

(** A transport that answers with neither a response nor an error. *)
Definition silent : RoundTripper := fun _ _ => (None, None).

End Scenarios.

(* ------------------------------------------------------------------ *)
(** * Properties of the codec *)

(** ** The scan of [strings.ReplaceAll] *)

Section ScanFacts.

Local Open Scope string_scope.
Local Open Scope nat_scope.

Lemma append_empty_r (s : string) : s ++ EmptyString = s.
Proof. induction s as [|c s IH]; simpl; [reflexivity | now rewrite IH]. Qed.

Lemma append_assoc (x y z : string) : (x ++ y) ++ z = x ++ (y ++ z).
Proof. induction x as [|c x IH]; simpl; [reflexivity | now rewrite IH]. Qed.

Lemma prefix_one (a c : ascii) (s : string) :
  prefix (str1 a) (String c s) = Ascii.eqb c a.
Proof.
  unfold str1; simpl. destruct (ascii_dec a c) as [->|Hne].
  - rewrite Ascii.eqb_refl. now destruct s.
  - symmetry. apply Ascii.eqb_neq. congruence.
Qed.

Lemma prefix_two (a b c : ascii) (s : string) :
  prefix (String a (String b EmptyString)) (String c s) = Ascii.eqb c a && starts b s.
Proof.
  simpl. destruct (ascii_dec a c) as [->|Hne].
  - rewrite Ascii.eqb_refl. simpl. destruct s as [|d s]; [reflexivity|].
    apply (prefix_one b d s).
  - replace (Ascii.eqb c a) with false; [reflexivity|].
    symmetry. apply Ascii.eqb_neq. congruence.
Qed.

Variables (a b : ascii) (new : string).

Let old2 : string := String a (String b EmptyString).

Lemma scan_one (s : string) :
  strings.replace_scan (str1 a) new 0 s
  = concat_map (fun c => if Ascii.eqb c a then new else str1 c) s.
Proof.
  induction s as [|c s IH]; [reflexivity|].
  cbn [strings.replace_scan concat_map]. rewrite prefix_one.
  cbn [str1 length Nat.sub]. rewrite IH.
  now destruct (Ascii.eqb c a).
Qed.

Lemma scan_two_cons (c : ascii) (s : string) :
  strings.replace_scan old2 new 0 (String c s)
  = if Ascii.eqb c a && starts b s
    then new ++ strings.replace_scan old2 new 1 s
    else String c (strings.replace_scan old2 new 0 s).
Proof.
  unfold old2. cbn [strings.replace_scan]. now rewrite prefix_two.
Qed.

Lemma dangle_cons (c : ascii) (x : string) :
  dangle a b 0 (String c x)
  = if Ascii.eqb c a && starts b x
    then dangle a b 1 x
    else match x with
         | EmptyString => Ascii.eqb c a
         | String _ _ => dangle a b 0 x
         end.
Proof.
  cbn [dangle]. now rewrite (prefix_two a b c x).
Qed.

Lemma starts_append (x y : string) :
  x <> EmptyString -> starts b (x ++ y) = starts b x.
Proof. destruct x; [congruence | reflexivity]. Qed.

(** The scan of [x ++ y] is the scan of [x] followed by the scan of [y],
    unless an occurrence lies across the end of [x]. *)
Lemma scan_two_append (x : string) :
  forall (skip : nat) (y : string),
    (skip = 0 \/ (skip = 1 /\ x <> EmptyString)) ->
    dangle a b skip x && starts b y = false ->
    strings.replace_scan old2 new skip (x ++ y)
    = strings.replace_scan old2 new skip x ++ strings.replace_scan old2 new 0 y.
Proof.
  induction x as [|c x IH]; intros skip y Hskip Hd.
  - destruct Hskip as [->|[_ Hne]]; [reflexivity | congruence].
  - destruct Hskip as [->|[-> _]].
    + change (String c x ++ y) with (String c (x ++ y)).
      rewrite !scan_two_cons. rewrite dangle_cons in Hd.
      destruct x as [|c' x'].
      * cbn [append starts] in *. rewrite andb_false_r in *.
        destruct (Ascii.eqb c a); cbn [andb] in *; [rewrite Hd|]; reflexivity.
      * rewrite starts_append by discriminate.
        destruct (Ascii.eqb c a && starts b (String c' x')).
        -- rewrite IH; [now rewrite append_assoc | right; split; [reflexivity|discriminate] | exact Hd].
        -- rewrite IH; [reflexivity | now left | exact Hd].
    + change (String c x ++ y) with (String c (x ++ y)).
      cbn [strings.replace_scan dangle] in *.
      apply IH; [now left | exact Hd].
Qed.

End ScanFacts.

Section BlockFacts.

Local Open Scope string_scope.
Local Open Scope nat_scope.

Lemma concat_map_append (f : ascii -> string) (x y : string) :
  concat_map f (x ++ y) = concat_map f x ++ concat_map f y.
Proof.
  induction x as [|c x IH]; simpl; [reflexivity|].
  now rewrite IH, append_assoc.
Qed.

Lemma concat_map_str1 (s : string) : concat_map str1 s = s.
Proof. induction s as [|c s IH]; simpl; [reflexivity | now rewrite IH]. Qed.

Lemma concat_map_ext (f g : ascii -> string) (P : ascii -> bool) (s : string) :
  (forall c, P c = true -> f c = g c) ->
  all_bytes_of P s = true ->
  concat_map f s = concat_map g s.
Proof.
  intros Hfg. induction s as [|c s IH]; simpl; [reflexivity|].
  intros [Hc Hs]%andb_prop. now rewrite (Hfg c Hc), IH.
Qed.

Lemma adjacent_all_impl (P Q : ascii -> ascii -> bool) (s : string) :
  (forall c d, P c d = true -> Q c d = true) ->
  adjacent_all P s = true -> adjacent_all Q s = true.
Proof.
  intros HPQ. induction s as [|c s IH]; [reflexivity|].
  cbn [adjacent_all]. intros [Hc Hs]%andb_prop.
  rewrite (IH Hs), andb_true_r. destruct s; [reflexivity | now apply HPQ].
Qed.

Lemma ReplaceAll_empty (old new : string) :
  strings.ReplaceAll EmptyString old new = EmptyString.
Proof. now destruct old. Qed.

(** A pass that is [step_ok] for two neighbouring blocks can be run on the
    first block and on the rest separately. *)
Lemma ReplaceAll_split (old new x y z : string) :
  step_ok old x y = true ->
  strings.ReplaceAll (x ++ y ++ z) old new
  = strings.ReplaceAll x old new ++ strings.ReplaceAll (y ++ z) old new.
Proof.
  destruct old as [|a [|b [|c old]]]; cbn [step_ok]; try discriminate.
  - intros _. unfold strings.ReplaceAll.
    change (String a EmptyString) with (str1 a).
    now rewrite !scan_one, concat_map_append.
  - intros Hok%negb_true_iff. unfold strings.ReplaceAll.
    apply scan_two_append; [now left|].
    destruct (dangle a b 0 x); [|reflexivity].
    cbn [andb] in *. destruct y as [|d y]; [discriminate | exact Hok].
Qed.

Lemma ReplaceAll_last (old new x : string) :
  strings.ReplaceAll (x ++ EmptyString) old new
  = strings.ReplaceAll x old new ++ EmptyString.
Proof. now rewrite !append_empty_r. Qed.

Lemma apply_rule_blocks (r : rule) (f : ascii -> string) (s : string) :
  adjacent_all (fun c d => step_ok (fst r) (f c) (f d)) s = true ->
  apply_rule (concat_map f s) r = concat_map (fun c => apply_rule (f c) r) s.
Proof.
  destruct r as [old new]. unfold apply_rule. cbn [fst snd].
  induction s as [|c s IH]; [intros _; apply ReplaceAll_empty|].
  cbn [adjacent_all concat_map]. intros [Hc Hs]%andb_prop.
  rewrite <- (IH Hs). destruct s as [|d s].
  - cbn [concat_map]. rewrite ReplaceAll_empty. apply ReplaceAll_last.
  - cbn [concat_map]. now apply ReplaceAll_split.
Qed.

Lemma apply_rules_cons (r : rule) (rules : list rule) (text : string) :
  apply_rules (r :: rules) text = apply_rules rules (apply_rule text r).
Proof. reflexivity. Qed.

Lemma apply_rules_blocks (rules : list rule) :
  forall (f : ascii -> string) (s : string),
    adjacent_all (fun c d => pair_ok rules (f c) (f d)) s = true ->
    apply_rules rules (concat_map f s)
    = concat_map (fun c => apply_rules rules (f c)) s.
Proof.
  induction rules as [|r rules IH]; intros f s Hadj; [reflexivity|].
  rewrite apply_rules_cons, apply_rule_blocks.
  - apply (IH (fun c => apply_rule (f c) r)).
    revert Hadj. apply adjacent_all_impl. intros c d.
    cbn [pair_ok]. now intros [_ H]%andb_prop.
  - revert Hadj. apply adjacent_all_impl. intros c d.
    cbn [pair_ok]. now intros [H _]%andb_prop.
Qed.

Lemma apply_rules_app (r1 r2 : list rule) (text : string) :
  apply_rules (r1 ++ r2) text = apply_rules r2 (apply_rules r1 text).
Proof. apply fold_left_app. Qed.

Lemma Encode_rules (text : string) : Encode text = apply_rules encode_rules text.
Proof. reflexivity. Qed.

Lemma Decode_rules (text : string) : Decode text = apply_rules decode_rules text.
Proof. reflexivity. Qed.

Lemma in_all_bytes (c : ascii) : In c all_bytes.
Proof.
  unfold all_bytes. rewrite <- (ascii_nat_embedding c).
  apply in_map, in_seq. pose proof (nat_ascii_bounded c). lia.
Qed.

Lemma forall_bytes (P : ascii -> bool) :
  forallb P all_bytes = true -> forall c, P c = true.
Proof.
  intros H c. rewrite forallb_forall in H. apply H, in_all_bytes.
Qed.

Lemma forall_byte_pairs (P : ascii -> ascii -> bool) :
  forallb (fun c => forallb (P c) all_bytes) all_bytes = true ->
  forall c d, P c d = true.
Proof.
  intros H c d. apply (forall_bytes (P c)), (forall_bytes _ H).
Qed.

(** Each pass of [Encode] rewrites bytes one by one. *)
Lemma encode_pair_ok (c d : ascii) :
  pair_ok encode_rules (str1 c) (str1 d) = true.
Proof.
  revert c d. apply forall_byte_pairs. vm_compute. reflexivity.
Qed.

Lemma codec_pair_ok (c d : ascii) :
  clash c d = false ->
  pair_ok (encode_rules ++ decode_rules) (str1 c) (str1 d) = true.
Proof.
  intros H.
  assert (Hall : implb (negb (clash c d))
            (pair_ok (encode_rules ++ decode_rules) (str1 c) (str1 d)) = true).
  { revert c d H. intros c d _. revert c d.
    apply forall_byte_pairs. vm_compute. reflexivity. }
  now rewrite H in Hall.
Qed.

Lemma codec_byte (c : ascii) :
  placeholder c = false -> Decode (Encode (str1 c)) = str1 c.
Proof.
  intros H.
  assert (Hall : implb (negb (placeholder c))
            (String.eqb (Decode (Encode (str1 c))) (str1 c)) = true).
  { clear H. revert c. apply forall_bytes. vm_compute. reflexivity. }
  rewrite H in Hall. now apply String.eqb_eq.
Qed.

Lemma Encode_bytewise (s : string) :
  Encode s = concat_map (fun c => Encode (str1 c)) s.
Proof.
  rewrite Encode_rules. rewrite <- (concat_map_str1 s) at 1.
  apply apply_rules_blocks.
  apply (adjacent_all_impl (fun _ _ => true)).
  - intros c d _. apply encode_pair_ok.
  - clear. induction s as [|c s IH]; [reflexivity|].
    cbn [adjacent_all]. rewrite IH. now destruct s.
Qed.

End BlockFacts.

(** ** Placeholder bytes as separators *)

Section Separators.

Local Open Scope string_scope.
Local Open Scope nat_scope.

(** A byte that is no part of the pattern cuts the text in two parts that
    the pass rewrites separately, and is itself kept. *)
Lemma ReplaceAll_sep (c : ascii) (old new x y : string) :
  sep_ok c old = true ->
  strings.ReplaceAll (x ++ String c y) old new
  = strings.ReplaceAll x old new ++ String c (strings.ReplaceAll y old new).
Proof.
  destruct old as [|a [|b [|d old]]]; cbn [sep_ok]; try discriminate.
  - intros Hc%negb_true_iff. unfold strings.ReplaceAll.
    change (String a EmptyString) with (str1 a).
    rewrite !scan_one, concat_map_append. cbn [concat_map].
    now rewrite Hc.
  - intros [Ha%negb_true_iff Hb%negb_true_iff]%andb_prop.
    unfold strings.ReplaceAll.
    rewrite scan_two_append; [| now left |].
    + now rewrite scan_two_cons, Ha.
    + cbn [starts]. rewrite Hb. apply andb_false_r.
Qed.

Lemma apply_rules_sep (c : ascii) (rules : list rule) :
  forallb (fun r => sep_ok c (fst r)) rules = true ->
  forall x y,
    apply_rules rules (x ++ String c y)
    = apply_rules rules x ++ String c (apply_rules rules y).
Proof.
  induction rules as [|r rules IH]; [reflexivity|].
  cbn [forallb]. intros [Hr Hrules]%andb_prop x y.
  rewrite !apply_rules_cons. unfold apply_rule.
  rewrite (ReplaceAll_sep c _ _ _ _ Hr). apply (IH Hrules).
Qed.

Lemma all_bytes_of_append (P : ascii -> bool) (x y : string) :
  all_bytes_of P (x ++ y) = all_bytes_of P x && all_bytes_of P y.
Proof.
  induction x as [|c x IH]; [reflexivity|].
  cbn [append all_bytes_of]. now rewrite IH, andb_assoc.
Qed.

Lemma forall_bytes_impl (P Q : ascii -> bool) :
  forallb (fun c => implb (P c) (Q c)) all_bytes = true ->
  forall c, P c = true -> Q c = true.
Proof.
  intros H c Hc. apply forall_bytes with (c := c) in H.
  now rewrite Hc in H.
Qed.

Lemma ReplaceAll_byte (a : ascii) (new x y : string) :
  strings.ReplaceAll (x ++ String a y) (str1 a) new
  = strings.ReplaceAll x (str1 a) new ++ new ++ strings.ReplaceAll y (str1 a) new.
Proof.
  unfold strings.ReplaceAll, str1. change (String a EmptyString) with (str1 a).
  rewrite !scan_one, concat_map_append. cbn [concat_map].
  now rewrite Ascii.eqb_refl.
Qed.

Lemma Decode_NUL (x y : string) :
  Decode (x ++ String NUL y) = Decode x ++ String UNDERSCORE (Decode y).
Proof.
  rewrite (Decode_rules x), (Decode_rules y), Decode_rules.
  change decode_rules
    with (firstn 12 decode_rules ++ [(str1 NUL, "_")] ++ skipn 13 decode_rules)%list.
  rewrite !apply_rules_app.
  rewrite (apply_rules_sep NUL (firstn 12 decode_rules) eq_refl).
  rewrite !(apply_rules_cons (str1 NUL, "_") []). unfold apply_rule.
  cbn [fst snd apply_rules fold_left].
  rewrite ReplaceAll_byte.
  change ("_" ++ ?z) with (String UNDERSCORE z).
  apply (apply_rules_sep UNDERSCORE (skipn 13 decode_rules) eq_refl).
Qed.

Lemma Decode_SOH (x y : string) :
  Decode (x ++ String SOH y) = Decode x ++ String DASH (Decode y).
Proof.
  rewrite (Decode_rules x), (Decode_rules y), Decode_rules.
  change decode_rules
    with (firstn 14 decode_rules ++ [(str1 SOH, "-")])%list.
  rewrite !apply_rules_app.
  rewrite (apply_rules_sep SOH (firstn 14 decode_rules) eq_refl).
  rewrite !(apply_rules_cons (str1 SOH, "-") []). unfold apply_rule.
  cbn [fst snd apply_rules fold_left].
  apply ReplaceAll_byte.
Qed.

(** [Encode] brings in no placeholder byte. *)
Lemma Encode_no_placeholder (s : string) :
  all_bytes_of (fun c => negb (placeholder c)) s = true ->
  all_bytes_of (fun c => negb (placeholder c)) (Encode s) = true.
Proof.
  rewrite Encode_bytewise.
  induction s as [|c s IH]; [reflexivity|].
  cbn [all_bytes_of concat_map]. intros [Hc Hs]%andb_prop.
  rewrite all_bytes_of_append, (IH Hs), andb_true_r.
  revert c Hc. apply forall_bytes_impl. vm_compute. reflexivity.
Qed.

End Separators.

(** ** Texts without clashing neighbours *)

Section InjectivityFacts.

Local Open Scope string_scope.

(** What [Decode] makes of an encoded text without clashing neighbours. *)
Lemma Decode_Encode_blocks (s : string) :
  adjacent_all (fun c d => negb (clash c d)) s = true ->
  Decode (Encode s) = concat_map decoded_byte s.
Proof.
  intros Hadj.
  transitivity (apply_rules (encode_rules ++ decode_rules) (concat_map str1 s)).
  { now rewrite concat_map_str1, apply_rules_app. }
  rewrite apply_rules_blocks.
  - apply (concat_map_ext _ _ (fun _ => true)).
    + intros c _. rewrite apply_rules_app.
      change (Decode (Encode (str1 c)) = decoded_byte c).
      apply String.eqb_eq. revert c. apply forall_bytes. vm_compute. reflexivity.
    + clear. induction s as [|c s IH]; [reflexivity | exact IH].
  - revert Hadj. apply adjacent_all_impl.
    intros c d Hcd%negb_true_iff. now apply codec_pair_ok.
Qed.


Lemma adjacent_all_tail (P : ascii -> ascii -> bool) (c : ascii) (s : string) :
  adjacent_all P (String c s) = true -> adjacent_all P s = true.
Proof. cbn [adjacent_all]. now intros [_ H]%andb_prop. Qed.




End InjectivityFacts.

(** ** The claims about the codec *)

Section CodecClaims.

Local Open Scope string_scope.

(** C1, as the claim states it: texts without three consecutive spaces
    would all survive [Encode] followed by [Decode].  The text with two
    spaces between a and b has no three consecutive spaces, and it comes
    back with one underscore instead. *)
Lemma roundtrip_fails_on_two_spaces :
  ~ (forall s : string,
        contains s "   " = false -> Decode (Encode s) = s).
Proof.
  intros H. specialize (H "a  b" eq_refl). vm_compute in H. discriminate H.
Qed.

(** C1, amended: a text that holds neither placeholder byte (\x00, \x01),
    no space immediately followed by a space or an underscore, no
    apostrophe immediately followed by an apostrophe or a double quote, and
    no tilde immediately followed by one of the escape letters
    q p h a l g b s n, is given back unchanged by [Encode] followed by
    [Decode]. *)
Theorem Decode_Encode_roundtrip (s : string) :
  roundtrip_safe s = true -> Decode (Encode s) = s.
Proof.
  unfold roundtrip_safe. intros [Hbytes Hadj]%andb_prop.
  transitivity (apply_rules (encode_rules ++ decode_rules) (concat_map str1 s)).
  { now rewrite concat_map_str1, apply_rules_app. }
  rewrite apply_rules_blocks.
  - rewrite <- (concat_map_str1 s) at 2.
    apply (concat_map_ext _ _ (fun c => negb (placeholder c))); [|exact Hbytes].
    intros c Hc%negb_true_iff. rewrite apply_rules_app. now apply codec_byte.
  - revert Hadj. apply adjacent_all_impl.
    intros c d Hcd%negb_true_iff. now apply codec_pair_ok.
Qed.

Lemma Decode_Encode_roundtrip_witness :
  roundtrip_safe "say hi, a_b-c d? 100% #1 <3 & more" = true
  /\ Decode (Encode "say hi, a_b-c d? 100% #1 <3 & more")
     = "say hi, a_b-c d? 100% #1 <3 & more".
Proof.
  split; [reflexivity|].
  apply (Decode_Encode_roundtrip "say hi, a_b-c d? 100% #1 <3 & more").
  reflexivity.
Defined.

(** Each condition of [roundtrip_safe] is needed: a text that breaks one of
    them, and only that one, is not given back. *)
Example roundtrip_conditions_needed :
  Decode (Encode "a  b") = "a_b"
  /\ Decode (Encode " _") = "_ "
  /\ Decode (Encode "''") = str1 DQUOTE
  /\ Decode (Encode (String APOS (str1 DQUOTE))) = String DQUOTE (str1 APOS)
  /\ Decode (Encode "~q") = "?"
  /\ Decode (Encode (str1 NUL)) = "_"
  /\ Decode (Encode (str1 SOH)) = "-".
Proof. vm_compute. repeat split. Qed.

(** C8: the known lossy case.  Two spaces are encoded as two underscores,
    two underscores are decoded as one literal underscore, and so the text
    with two spaces is not recovered. *)
Theorem lossy_two_spaces :
  Encode "a  b" = "a__b"
  /\ Decode "a__b" = "a_b"
  /\ Decode (Encode "a  b") <> "a  b".
Proof.
  repeat split; try reflexivity. vm_compute. discriminate.
Qed.


(** Each kind of clashing neighbours gives two texts with one encoding. *)
Example Encode_collisions :
  Encode "  " = Encode "_"
  /\ Encode " _" = Encode "_ "
  /\ Encode "''" = Encode (str1 DQUOTE)
  /\ Encode (String APOS (str1 DQUOTE)) = Encode (String DQUOTE (str1 APOS))
  /\ Encode "~q" = Encode "?".
Proof. vm_compute. repeat split. Qed.


(** C10: the placeholder bytes.  [Decode] turns every byte \x00 of its
    input into an underscore and every byte \x01 into a dash, wherever they
    stand; [Encode] brings in neither byte; and so [Decode] changes the
    one-byte text \x00, which holds no encoded sequence, into an
    underscore. *)
Theorem placeholders_are_rewritten :
  (forall x y, Decode (x ++ String NUL y) = Decode x ++ String UNDERSCORE (Decode y))
  /\ (forall x y, Decode (x ++ String SOH y) = Decode x ++ String DASH (Decode y))
  /\ (forall s, all_bytes_of (fun c => negb (placeholder c)) s = true ->
                all_bytes_of (fun c => negb (placeholder c)) (Encode s) = true)
  /\ Decode (str1 NUL) = "_"
  /\ Decode (str1 SOH) = "-"
  /\ Decode (str1 NUL) <> str1 NUL.
Proof.
  split; [exact Decode_NUL|]. split; [exact Decode_SOH|].
  split; [exact Encode_no_placeholder|].
  repeat split; try reflexivity. vm_compute. discriminate.
Qed.

End CodecClaims.

(* ------------------------------------------------------------------ *)
(** * Properties of the transports *)

(** ** The runs of the retry loop *)

Section TransportFacts.

Import http.
Local Open Scope Z_scope.

Variable tr : retryTransport.t.

(** The function [attempts] performs one of the runs of [Run]. *)
Lemma attempts_Run (n : nat) :
  forall attempt req resp,
    Run tr n attempt req resp
      (fst (retryTransport.attempts tr n attempt req resp))
      (snd (retryTransport.attempts tr n attempt req resp)).
Proof.
  induction n as [|n IH]; intros attempt req resp; [constructor|].
  cbn [retryTransport.attempts].
  destruct (retryTransport.clone_body attempt req) as [bodyErr|[req1 evs]] eqn:Hclone.
  - now constructor.
  - destruct (retryTransport.base tr attempt req1) as [[r|] [err|]] eqn:Hbase;
      cbn [fst snd]; try (econstructor; eassumption).
    destruct (shouldRetry (Response.StatusCode r)) eqn:Hretry; cbn [negb fst snd].
    2: now constructor.
    destruct (Z.of_nat attempt <? retryTransport.maxRetries tr) eqn:Hlt.
    + apply Z.ltb_lt in Hlt.
      destruct (context.select_done _ _ _) as [ctxErr|] eqn:Hsel; cbn [fst snd].
      * now constructor.
      * specialize (IH (S attempt) req1 (Some r)).
        destruct (retryTransport.attempts tr n (S attempt) req1 (Some r)) as [out rest].
        now constructor.
    + apply Z.ltb_ge in Hlt.
      specialize (IH (S attempt) req1 (Some r)).
      destruct (retryTransport.attempts tr n (S attempt) req1 (Some r)) as [out rest].
      now constructor.
Qed.

Lemma Run_zero attempt req resp out evs :
  Run tr 0 attempt req resp out evs -> out = Return (resp, None) /\ evs = [].
Proof. inversion 1; subst; now split. Qed.

(** What [clone_body] leaves behind: at most one event, a call of
    [GetBody]; the context and the body factory of the request are kept. *)
Lemma clone_body_inr attempt req req1 evs :
  retryTransport.clone_body attempt req = inr (req1, evs) ->
  (evs = [] \/ evs = [EvGetBody attempt])
  /\ Request.Context req1 = Request.Context req
  /\ Request.GetBody req1 = Request.GetBody req.
Proof.
  unfold retryTransport.clone_body.
  destruct (Request.Body req) as [b|]; [destruct (Request.GetBody req) as [get|] eqn:Hget|].
  - destruct (get attempt) as [body [bodyErr|]]; [discriminate|].
    intros [= <- <-]. repeat split; [now right | exact Hget].
  - intros [= <- <-]. repeat split; [now left | exact Hget].
  - intros [= <- <-]. repeat split. now left.
Qed.

Lemma clone_body_inl attempt req bodyErr :
  retryTransport.clone_body attempt req = inl bodyErr -> ~ clone_ok req.
Proof.
  unfold retryTransport.clone_body, clone_ok. intros Hclone Hok.
  destruct (Request.Body req) as [b|]; [|discriminate].
  destruct (Request.GetBody req) as [get|]; [|discriminate].
  specialize (Hok get attempt eq_refl).
  destruct (get attempt) as [body [e|]]; [discriminate Hok | discriminate Hclone].
Qed.

Lemma round_trips_app (l1 l2 : list event) :
  round_trips (l1 ++ l2) = (round_trips l1 + round_trips l2)%nat.
Proof. unfold round_trips. now rewrite filter_app, length_app. Qed.

Lemma last_event_app_cons (l1 l2 : list event) (ev : event) :
  last_event (l1 ++ ev :: l2) = last_event (ev :: l2).
Proof.
  unfold last_event. induction l1 as [|x l1 IH]; [reflexivity|].
  rewrite <- IH. cbn [app map].
  destruct (map Some (l1 ++ ev :: l2)) eqn:E; [|reflexivity].
  destruct l1; discriminate E.
Qed.

Lemma last_event_cons (ev : event) (l : list event) :
  l <> [] -> last_event (ev :: l) = last_event l.
Proof. destruct l; [congruence | reflexivity]. Qed.

Ltac clone_cases H :=
  let Hctx := fresh "Hctx" in
  let Hget := fresh "Hget" in
  destruct (clone_body_inr _ _ _ _ H) as [[-> | ->] [Hctx Hget]].

Lemma never_done_clone attempt req req1 evs :
  retryTransport.clone_body attempt req = inr (req1, evs) ->
  never_done req -> never_done req1.
Proof.
  intros H Hnd k d. destruct (clone_body_inr _ _ _ _ H) as (_ & -> & _). apply Hnd.
Qed.

Lemma clone_ok_clone attempt req req1 evs :
  retryTransport.clone_body attempt req = inr (req1, evs) ->
  clone_ok req -> clone_ok req1.
Proof.
  intros H Hok get k. destruct (clone_body_inr _ _ _ _ H) as (_ & _ & ->). apply Hok.
Qed.

Lemma round_trips_clone attempt req req1 evs rest :
  retryTransport.clone_body attempt req = inr (req1, evs) ->
  round_trips (evs ++ rest) = round_trips rest.
Proof. intros H. clone_cases H; reflexivity. Qed.

(** When every answer of the base transport is a retryable status, the
    context is never done and the body factory never fails, the loop runs
    to its end: one call of the base transport per iteration, and the
    response of the last call is returned. *)
Lemma Run_always_retryable n attempt req resp out evs :
  Run tr n attempt req resp out evs ->
  (forall k rq, exists r,
      retryTransport.base tr k rq = (Some r, None)
      /\ shouldRetry (Response.StatusCode r) = true) ->
  never_done req -> clone_ok req ->
  (0 < n)%nat ->
  Z.of_nat attempt + Z.of_nat n = retryTransport.maxRetries tr + 1 ->
  exists rq r,
    out = Return (Some r, None)
    /\ retryTransport.base tr (attempt + n - 1)%nat rq = (Some r, None)
    /\ round_trips evs = n.
Proof.
  intros HRun Hbase.
  induction HRun as
    [ attempt req resp
    | n attempt req resp bodyErr Hclone
    | n attempt req resp req1 evs r err Hclone Hres
    | n attempt req resp req1 evs Hclone Hres
    | n attempt req resp req1 evs r Hclone Hres Hretry
    | n attempt req resp req1 evs r ctxErr Hclone Hres Hretry Hlt Hsel
    | n attempt req resp req1 evs r out rest Hclone Hres Hretry Hlt Hsel HRun IH
    | n attempt req resp req1 evs r out rest Hclone Hres Hretry Hge HRun IH ];
    intros Hnd Hok Hn Hinv.
  - lia.
  - now apply clone_body_inl in Hclone.
  - destruct (Hbase attempt req1) as (r' & Hr' & _). congruence.
  - destruct (Hbase attempt req1) as (r' & Hr' & _). congruence.
  - destruct (Hbase attempt req1) as (r' & Hr' & Hretry'). congruence.
  - rewrite (never_done_clone _ _ _ _ Hclone Hnd) in Hsel. discriminate.
  - destruct IH as (rq & r' & -> & Hlast & Hcount).
    + now apply (never_done_clone _ _ _ _ Hclone).
    + now apply (clone_ok_clone _ _ _ _ Hclone).
    + lia.
    + lia.
    + exists rq, r'. split; [reflexivity|]. split.
      * replace (attempt + S n - 1)%nat with (S attempt + n - 1)%nat by lia.
        exact Hlast.
      * rewrite (round_trips_clone _ _ _ _ _ Hclone).
        unfold round_trips in *. cbn [filter is_round_trip List.length].
        now rewrite Hcount.
  - assert (n = 0%nat) by lia. subst n.
    apply Run_zero in HRun as [-> ->].
    exists req1, r. split; [reflexivity|]. split.
    + replace (attempt + 1 - 1)%nat with attempt by lia. exact Hres.
    + now rewrite (round_trips_clone _ _ _ _ _ Hclone).
Qed.

Lemma clone_body_In attempt req req1 evs ev :
  retryTransport.clone_body attempt req = inr (req1, evs) ->
  In ev evs -> ev = EvGetBody attempt.
Proof.
  intros H Hin. clone_cases H; cbn [In] in Hin; [contradiction|].
  now destruct Hin.
Qed.

Lemma In_nonempty (ev : event) (l : list event) : In ev l -> l <> [].
Proof. now destruct l. Qed.

Ltac run_induction HRun :=
  induction HRun as
    [ attempt req resp
    | n attempt req resp bodyErr Hclone
    | n attempt req resp req1 evs r0 err Hclone Hres
    | n attempt req resp req1 evs Hclone Hres
    | n attempt req resp req1 evs r0 Hclone Hres Hretry
    | n attempt req resp req1 evs r0 ctxErr Hclone Hres Hretry Hlt Hsel
    | n attempt req resp req1 evs r0 out rest Hclone Hres Hretry Hlt Hsel HRun IH
    | n attempt req resp req1 evs r0 out rest Hclone Hres Hretry Hge HRun IH ].

(** Splits [In ev (evs ++ ...)] for the events [evs] of [clone_body] and
    clears the cases where [ev] is an event of another kind. *)
Ltac split_In Hclone Hin :=
  apply in_app_or in Hin; destruct Hin as [Hin|Hin];
  [ apply (clone_body_In _ _ _ _ _ Hclone) in Hin; discriminate Hin
  | cbn [In] in Hin;
    repeat match type of Hin with
           | _ \/ _ => destruct Hin as [Hin|Hin]; [try discriminate Hin|]
           | False => contradiction
           end ].

(** An error of the base transport ends the run at once. *)
Lemma Run_transport_error_final n attempt0 req resp out evs :
  Run tr n attempt0 req resp out evs ->
  forall k rq r e,
    In (EvRoundTrip k rq (r, Some e)) evs ->
    out = Return (None, Some (fmt.Errorf_w "round trip: " e))
    /\ last_event evs = Some (EvRoundTrip k rq (r, Some e))
    /\ (attempt0 <= k)%nat
    /\ round_trips evs = (S k - attempt0)%nat.
Proof.
  intros HRun. run_induction HRun; intros k rq r e Hin.
  - contradiction.
  - destruct Hin as [Hin|[]]. discriminate Hin.
  - split_In Hclone Hin. injection Hin as <- <- <- <-.
    rewrite last_event_app_cons, (round_trips_clone _ _ _ _ _ Hclone).
    repeat split; [lia|].
    unfold round_trips. cbn [filter is_round_trip List.length]. lia.
  - split_In Hclone Hin.
  - split_In Hclone Hin.
  - split_In Hclone Hin.
  - split_In Hclone Hin.
    destruct (IH _ _ _ _ Hin) as (-> & Hlast & Hle & Hcount).
    rewrite last_event_app_cons, !last_event_cons, (round_trips_clone _ _ _ _ _ Hclone);
      try discriminate; [| exact (In_nonempty _ _ Hin)].
    repeat split; [exact Hlast | lia |].
    unfold round_trips in *. cbn [filter is_round_trip List.length]. lia.
  - split_In Hclone Hin.
    destruct (IH _ _ _ _ Hin) as (-> & Hlast & Hle & Hcount).
    rewrite last_event_app_cons, !last_event_cons, (round_trips_clone _ _ _ _ _ Hclone);
      [| exact (In_nonempty _ _ Hin)].
    repeat split; [exact Hlast | lia |].
    unfold round_trips in *. cbn [filter is_round_trip List.length]. lia.
Qed.

(** A context that is done during a backoff wait ends the run at once. *)
Lemma Run_cancelled_final n attempt0 req resp out evs :
  Run tr n attempt0 req resp out evs ->
  forall k d e,
    In (EvDone k d e) evs ->
    out = Return (None, Some (fmt.Errorf_w "retry wait: " e))
    /\ last_event evs = Some (EvDone k d e)
    /\ (attempt0 <= k)%nat
    /\ round_trips evs = (S k - attempt0)%nat
    /\ Z.of_nat k < retryTransport.maxRetries tr
    /\ context.select_done (Request.Context req) k d = Some e.
Proof.
  intros HRun. run_induction HRun; intros k d e Hin.
  - contradiction.
  - destruct Hin as [Hin|[]]. discriminate Hin.
  - split_In Hclone Hin.
  - split_In Hclone Hin.
  - split_In Hclone Hin.
  - split_In Hclone Hin. injection Hin as <- <- <-.
    rewrite last_event_app_cons, 2 last_event_cons, (round_trips_clone _ _ _ _ _ Hclone);
      try discriminate.
    destruct (clone_body_inr _ _ _ _ Hclone) as (_ & <- & _).
    repeat split; [lia | | exact Hlt | exact Hsel].
    unfold round_trips. cbn [filter is_round_trip List.length]. lia.
  - split_In Hclone Hin.
    destruct (IH _ _ _ Hin) as (-> & Hlast & Hle & Hcount & Hk & Hdone).
    rewrite last_event_app_cons, !last_event_cons, (round_trips_clone _ _ _ _ _ Hclone);
      try discriminate; [| exact (In_nonempty _ _ Hin)].
    destruct (clone_body_inr _ _ _ _ Hclone) as (_ & <- & _).
    repeat split; [exact Hlast | lia | | exact Hk | exact Hdone].
    unfold round_trips in *. cbn [filter is_round_trip List.length]. lia.
  - split_In Hclone Hin.
    destruct (IH _ _ _ Hin) as (-> & Hlast & Hle & Hcount & Hk & Hdone).
    rewrite last_event_app_cons, !last_event_cons, (round_trips_clone _ _ _ _ _ Hclone);
      [| exact (In_nonempty _ _ Hin)].
    destruct (clone_body_inr _ _ _ _ Hclone) as (_ & <- & _).
    repeat split; [exact Hlast | lia | | exact Hk | exact Hdone].
    unfold round_trips in *. cbn [filter is_round_trip List.length]. lia.
Qed.

Lemma bodies_released_clone attempt req req1 evs rest :
  retryTransport.clone_body attempt req = inr (req1, evs) ->
  bodies_released (evs ++ rest) = bodies_released rest.
Proof. intros H. clone_cases H; reflexivity. Qed.

Lemma bodies_released_closed k rq r d rest :
  bodies_released
    (EvRoundTrip k rq (Some r, None) :: EvClose k (Response.Body r) :: d :: rest)
  = bodies_released (d :: rest).
Proof. cbn [bodies_released closed_first]. now rewrite !Nat.eqb_refl. Qed.

(** A trace that ends on a round trip with a response leaves that body
    open. *)
Lemma bodies_released_open pre k rq r :
  bodies_released (pre ++ [EvRoundTrip k rq (Some r, None)]) = false.
Proof.
  induction pre as [|ev pre IH]; [reflexivity|].
  cbn [app]. destruct ev as [a|a q [[r'|] [e|]]|a b|a d|a d e];
    cbn [bodies_released]; rewrite ?IH, ?andb_false_r; reflexivity.
Qed.

(** The release discipline of the loop, when it runs up to the iteration
    [maxRetries]. *)
Lemma Run_scoped_release n attempt req resp out evs :
  Run tr n attempt req resp out evs ->
  (0 < n)%nat ->
  Z.of_nat attempt + Z.of_nat n = retryTransport.maxRetries tr + 1 ->
  out <> Return (None, None) /\ scoped_release out evs.
Proof.
  intros HRun. run_induction HRun; intros Hn Hinv.
  - lia.
  - split; [discriminate | reflexivity].
  - split; [discriminate|]. cbn [scoped_release].
    rewrite (bodies_released_clone _ _ _ _ _ Hclone). now destruct r0.
  - split; [discriminate|]. cbn [scoped_release].
    now rewrite (bodies_released_clone _ _ _ _ _ Hclone).
  - split; [discriminate|]. cbn [scoped_release].
    split; [|apply bodies_released_open].
    exists evs, attempt, req1. split; [reflexivity|].
    rewrite <- (app_nil_r evs). now rewrite (bodies_released_clone _ _ _ _ _ Hclone).
  - split; [discriminate|]. cbn [scoped_release].
    now rewrite (bodies_released_clone _ _ _ _ _ Hclone), bodies_released_closed.
  - destruct IH as [Hout Hrel]; [lia | lia |]. split; [exact Hout|].
    assert (Hkeep : forall l,
               bodies_released
                 (evs ++ EvRoundTrip attempt req1 (Some r0, None)
                      :: EvClose attempt (Response.Body r0)
                      :: EvTimer attempt (retryTransport.delay tr attempt) :: l)
               = bodies_released l).
    { intros l. now rewrite (bodies_released_clone _ _ _ _ _ Hclone),
                             bodies_released_closed. }
    destruct out as [[[r'|] [e|]]|]; cbn [scoped_release] in *;
      try (now rewrite Hkeep); [|congruence].
    destruct Hrel as [(pre & k & rq & -> & Hpre) _].
    split.
    + eexists (evs ++ _ :: _ :: _ :: pre)%list, k, rq.
      split; [now rewrite <- app_assoc | now rewrite Hkeep].
    + rewrite Hkeep. apply bodies_released_open.
  - assert (n = 0%nat) by lia. subst n.
    apply Run_zero in HRun as [-> ->].
    split; [discriminate|]. cbn [scoped_release].
    split; [|apply bodies_released_open].
    exists evs, attempt, req1. split; [reflexivity|].
    rewrite <- (app_nil_r evs). now rewrite (bodies_released_clone _ _ _ _ _ Hclone).
Qed.

(** The number of iterations of the loop, for a bound that is a Go int. *)
Lemma iterations_in_range :
  - 2 ^ 63 <= retryTransport.maxRetries tr < 2 ^ 63 ->
  Z.to_nat (GoInt.add (retryTransport.maxRetries tr) 1) = 0%nat
  \/ Z.of_nat (Z.to_nat (GoInt.add (retryTransport.maxRetries tr) 1))
     = retryTransport.maxRetries tr + 1.
Proof.
  intros Hrange. unfold GoInt.add, GoInt.wrap.
  change (2 ^ 63) with 9223372036854775808 in *.
  change (2 ^ 64) with 18446744073709551616.
  destruct (Z.eq_dec (retryTransport.maxRetries tr) 9223372036854775807) as [->|Hne].
  - now left.
  - rewrite Z.mod_small by lia.
    destruct (Z_le_gt_dec 0 (retryTransport.maxRetries tr + 1)).
    + right. rewrite Z2Nat.id; lia.
    + left. lia.
Qed.

Local Open Scope list_scope.

(** The wait that follows an attempt before the last one, when the context
    is done first, ends the run at once. *)
Lemma Run_done_during_wait n attempt0 req resp out evs :
  Run tr n attempt0 req resp out evs ->
  forall k rq r e,
    In (EvRoundTrip k rq (Some r, None)) evs ->
    shouldRetry (Response.StatusCode r) = true ->
    Z.of_nat k < retryTransport.maxRetries tr ->
    context.select_done (Request.Context req) k (retryTransport.delay tr k) = Some e ->
    out = Return (None, Some (fmt.Errorf_w "retry wait: " e))
    /\ (exists pre,
           evs = pre ++ [EvRoundTrip k rq (Some r, None);
                         EvClose k (Response.Body r);
                         EvDone k (retryTransport.delay tr k) e])
    /\ (attempt0 <= k)%nat
    /\ round_trips evs = (S k - attempt0)%nat.
Proof.
  intros HRun. run_induction HRun; intros k rq r e Hin Hstatus Hk Hdone.
  - contradiction.
  - destruct Hin as [Hin|[]]. discriminate Hin.
  - split_In Hclone Hin.
  - split_In Hclone Hin.
  - split_In Hclone Hin. injection Hin as <- <- <-. congruence.
  - split_In Hclone Hin. injection Hin as <- <- <-.
    destruct (clone_body_inr _ _ _ _ Hclone) as (_ & Hctx & _).
    rewrite Hctx, Hdone in Hsel. injection Hsel as <-.
    rewrite (round_trips_clone _ _ _ _ _ Hclone).
    repeat split; [now exists evs | lia |].
    unfold round_trips. cbn [filter is_round_trip List.length]. lia.
  - destruct (clone_body_inr _ _ _ _ Hclone) as (_ & Hctx & _).
    split_In Hclone Hin.
    + injection Hin as <- <- <-. rewrite Hctx, Hdone in Hsel. discriminate Hsel.
    + rewrite <- Hctx in Hdone.
      destruct (IH _ _ _ _ Hin Hstatus Hk Hdone) as (-> & (pre & ->) & Hle & Hcount).
      rewrite (round_trips_clone _ _ _ _ _ Hclone).
      repeat split; [| lia |].
      * eexists (evs ++ _ :: _ :: _ :: pre)%list. now rewrite <- app_assoc.
      * unfold round_trips in *. cbn [filter is_round_trip List.length]. lia.
  - destruct (clone_body_inr _ _ _ _ Hclone) as (_ & Hctx & _).
    split_In Hclone Hin.
    + injection Hin as <- <- <-. lia.
    + rewrite <- Hctx in Hdone.
      destruct (IH _ _ _ _ Hin Hstatus Hk Hdone) as (-> & (pre & ->) & Hle & Hcount).
      rewrite (round_trips_clone _ _ _ _ _ Hclone).
      repeat split; [| lia |].
      * eexists (evs ++ _ :: pre)%list. now rewrite <- app_assoc.
      * unfold round_trips in *. cbn [filter is_round_trip List.length]. lia.
Qed.

Lemma nil_split (x : event) (pre post : list event) :
  [] = pre ++ x :: post -> False.
Proof. destruct pre; discriminate. Qed.

Lemma cons_split (a x : event) (l pre post : list event) :
  a :: l = pre ++ x :: post ->
  (pre = [] /\ a = x /\ l = post)
  \/ (exists pre', pre = a :: pre' /\ l = pre' ++ x :: post).
Proof.
  destruct pre as [|b pre]; cbn [app]; intros [= -> ->].
  - now left.
  - right. now exists pre.
Qed.

(** An event that is no call of [GetBody] stands after the events of
    [clone_body]. *)
Lemma clone_split attempt req req1 evs (x : event) (l pre post : list event) :
  retryTransport.clone_body attempt req = inr (req1, evs) ->
  x <> EvGetBody attempt ->
  evs ++ l = pre ++ x :: post ->
  exists pre', pre = evs ++ pre' /\ l = pre' ++ x :: post.
Proof.
  intros Hclone Hx H. destruct (clone_body_inr _ _ _ _ Hclone) as [[-> | ->] _].
  - now exists pre.
  - cbn [app] in H. apply cons_split in H as [(_ & <- & _) | (pre' & -> & H)].
    + now contradiction Hx.
    + now exists pre'.
Qed.

(** An iteration begins with the call of [GetBody] or with the call of the
    base transport. *)
Lemma Run_starts n attempt req resp out evs :
  Run tr (S n) attempt req resp out evs ->
  exists ev post, evs = ev :: post /\ starts_attempt attempt ev.
Proof.
  unfold starts_attempt. inversion 1; subst;
    try (eexists _, _; split; [reflexivity | now left]);
    match goal with
    | Hclone : retryTransport.clone_body _ _ = inr _ |- _ =>
        destruct (clone_body_inr _ _ _ _ Hclone) as [[-> | ->] _]
    end;
    cbn [app]; eexists _, _; (split; [reflexivity|]);
    solve [now left | right; eexists _, _; reflexivity].
Qed.

(** What follows a round trip that gave a response and no error: nothing,
    when the response is returned; or the close of its body and then the
    wait, which the context ends or after which the next attempt begins. *)
Lemma Run_after_response n attempt0 req resp out evs :
  Run tr n attempt0 req resp out evs ->
  (0 < n)%nat ->
  Z.of_nat attempt0 + Z.of_nat n = retryTransport.maxRetries tr + 1 ->
  forall pre k rq r post,
    evs = pre ++ EvRoundTrip k rq (Some r, None) :: post ->
    (post = [] /\ out = Return (Some r, None)
     /\ (shouldRetry (Response.StatusCode r) = false
         \/ retryTransport.maxRetries tr <= Z.of_nat k))
    \/ (exists e,
           post = [EvClose k (Response.Body r);
                   EvDone k (retryTransport.delay tr k) e]
           /\ out = Return (None, Some (fmt.Errorf_w "retry wait: " e)))
    \/ (exists ev post',
           post = EvClose k (Response.Body r)
                    :: EvTimer k (retryTransport.delay tr k) :: ev :: post'
           /\ starts_attempt (S k) ev).
Proof.
  intros HRun. run_induction HRun; intros Hn Hinv pre k rq r post H.
  - lia.
  - apply cons_split in H as [(_ & H & _) | (p & _ & H)];
      [discriminate H | now apply nil_split in H].
  - apply (clone_split _ _ _ _ _ _ _ _ Hclone) in H as (p & -> & H); [|discriminate].
    apply cons_split in H as [(_ & H & _) | (p' & _ & H)];
      [discriminate H | now apply nil_split in H].
  - apply (clone_split _ _ _ _ _ _ _ _ Hclone) in H as (p & -> & H); [|discriminate].
    apply cons_split in H as [(_ & H & _) | (p' & _ & H)];
      [discriminate H | now apply nil_split in H].
  - apply (clone_split _ _ _ _ _ _ _ _ Hclone) in H as (p & -> & H); [|discriminate].
    apply cons_split in H as [(_ & H & <-) | (p' & _ & H)];
      [| now apply nil_split in H].
    injection H as <- <- <-. left. repeat split. now left.
  - apply (clone_split _ _ _ _ _ _ _ _ Hclone) in H as (p & -> & H); [|discriminate].
    apply cons_split in H as [(_ & H & <-) | (p' & _ & H)].
    { injection H as <- <- <-. right. left. now exists ctxErr. }
    apply cons_split in H as [(_ & H & _) | (p'' & _ & H)]; [discriminate H|].
    apply cons_split in H as [(_ & H & _) | (p3 & _ & H)];
      [discriminate H | now apply nil_split in H].
  - apply (clone_split _ _ _ _ _ _ _ _ Hclone) in H as (p & -> & H); [|discriminate].
    apply cons_split in H as [(_ & H & <-) | (p' & _ & H)].
    { injection H as <- <- <-. right. right.
      destruct n as [|n]; [lia|].
      destruct (Run_starts _ _ _ _ _ _ HRun) as (ev & post' & -> & Hev).
      now exists ev, post'. }
    apply cons_split in H as [(_ & H & _) | (p'' & _ & H)]; [discriminate H|].
    apply cons_split in H as [(_ & H & _) | (p3 & _ & H)]; [discriminate H|].
    apply (IH ltac:(lia) ltac:(lia) _ _ _ _ _ H).
  - assert (n = 0%nat) by lia. subst n.
    apply Run_zero in HRun as [-> ->].
    apply (clone_split _ _ _ _ _ _ _ _ Hclone) in H as (p & -> & H); [|discriminate].
    apply cons_split in H as [(_ & H & <-) | (p' & _ & H)];
      [| now apply nil_split in H].
    injection H as <- <- <-. left. repeat split. now right.
Qed.

(** Nothing follows a round trip that gave an error: the response that may
    come with the error is dropped, and its body is not closed. *)
Lemma Run_after_error n attempt0 req resp out evs :
  Run tr n attempt0 req resp out evs ->
  forall pre k rq ro e post,
    evs = pre ++ EvRoundTrip k rq (ro, Some e) :: post ->
    post = [] /\ out = Return (None, Some (fmt.Errorf_w "round trip: " e)).
Proof.
  intros HRun. run_induction HRun; intros pre k rq ro e post H.
  - now apply nil_split in H.
  - apply cons_split in H as [(_ & H & _) | (p & _ & H)];
      [discriminate H | now apply nil_split in H].
  - apply (clone_split _ _ _ _ _ _ _ _ Hclone) in H as (p & -> & H); [|discriminate].
    apply cons_split in H as [(_ & H & <-) | (p' & _ & H)];
      [| now apply nil_split in H].
    injection H as <- <- <- <-. now split.
  - apply (clone_split _ _ _ _ _ _ _ _ Hclone) in H as (p & -> & H); [|discriminate].
    apply cons_split in H as [(_ & H & _) | (p' & _ & H)];
      [discriminate H | now apply nil_split in H].
  - apply (clone_split _ _ _ _ _ _ _ _ Hclone) in H as (p & -> & H); [|discriminate].
    apply cons_split in H as [(_ & H & _) | (p' & _ & H)];
      [discriminate H | now apply nil_split in H].
  - apply (clone_split _ _ _ _ _ _ _ _ Hclone) in H as (p & -> & H); [|discriminate].
    apply cons_split in H as [(_ & H & _) | (p' & _ & H)]; [discriminate H|].
    apply cons_split in H as [(_ & H & _) | (p'' & _ & H)]; [discriminate H|].
    apply cons_split in H as [(_ & H & _) | (p3 & _ & H)];
      [discriminate H | now apply nil_split in H].
  - apply (clone_split _ _ _ _ _ _ _ _ Hclone) in H as (p & -> & H); [|discriminate].
    apply cons_split in H as [(_ & H & _) | (p' & _ & H)]; [discriminate H|].
    apply cons_split in H as [(_ & H & _) | (p'' & _ & H)]; [discriminate H|].
    apply cons_split in H as [(_ & H & _) | (p3 & _ & H)]; [discriminate H|].
    apply (IH _ _ _ _ _ _ H).
  - apply (clone_split _ _ _ _ _ _ _ _ Hclone) in H as (p & -> & H); [|discriminate].
    apply cons_split in H as [(_ & H & _) | (p' & _ & H)]; [discriminate H|].
    apply (IH _ _ _ _ _ _ H).
Qed.

(** A close comes right after the round trip whose response it releases,
    and nowhere else. *)
Lemma Run_before_close n attempt0 req resp out evs :
  Run tr n attempt0 req resp out evs ->
  forall pre k b post,
    evs = pre ++ EvClose k b :: post ->
    exists pre' rq r,
      pre = pre' ++ [EvRoundTrip k rq (Some r, None)]
      /\ b = Response.Body r
      /\ shouldRetry (Response.StatusCode r) = true
      /\ Z.of_nat k < retryTransport.maxRetries tr.
Proof.
  intros HRun. run_induction HRun; intros pre k b post H.
  - now apply nil_split in H.
  - apply cons_split in H as [(_ & H & _) | (p & _ & H)];
      [discriminate H | now apply nil_split in H].
  - apply (clone_split _ _ _ _ _ _ _ _ Hclone) in H as (p & -> & H); [|discriminate].
    apply cons_split in H as [(_ & H & _) | (p' & _ & H)];
      [discriminate H | now apply nil_split in H].
  - apply (clone_split _ _ _ _ _ _ _ _ Hclone) in H as (p & -> & H); [|discriminate].
    apply cons_split in H as [(_ & H & _) | (p' & _ & H)];
      [discriminate H | now apply nil_split in H].
  - apply (clone_split _ _ _ _ _ _ _ _ Hclone) in H as (p & -> & H); [|discriminate].
    apply cons_split in H as [(_ & H & _) | (p' & _ & H)];
      [discriminate H | now apply nil_split in H].
  - apply (clone_split _ _ _ _ _ _ _ _ Hclone) in H as (p & -> & H); [|discriminate].
    apply cons_split in H as [(_ & H & _) | (p' & -> & H)]; [discriminate H|].
    apply cons_split in H as [(-> & H & _) | (p'' & _ & H)].
    { injection H as <- <-. exists evs, req1, r0. now repeat split. }
    apply cons_split in H as [(_ & H & _) | (p3 & _ & H)];
      [discriminate H | now apply nil_split in H].
  - apply (clone_split _ _ _ _ _ _ _ _ Hclone) in H as (p & -> & H); [|discriminate].
    apply cons_split in H as [(_ & H & _) | (p' & -> & H)]; [discriminate H|].
    apply cons_split in H as [(-> & H & _) | (p'' & -> & H)].
    { injection H as <- <-. exists evs, req1, r0. now repeat split. }
    apply cons_split in H as [(_ & H & _) | (p3 & -> & H)]; [discriminate H|].
    destruct (IH _ _ _ _ H) as (pre' & rq & r & -> & Hb & Hs & Hk).
    eexists (evs ++ _ :: _ :: _ :: pre')%list, rq, r.
    split; [now rewrite <- app_assoc | now repeat split].
  - apply (clone_split _ _ _ _ _ _ _ _ Hclone) in H as (p & -> & H); [|discriminate].
    apply cons_split in H as [(_ & H & _) | (p' & -> & H)]; [discriminate H|].
    destruct (IH _ _ _ _ H) as (pre' & rq & r & -> & Hb & Hs & Hk).
    eexists (evs ++ _ :: pre')%list, rq, r.
    split; [now rewrite <- app_assoc | now repeat split].
Qed.

End TransportFacts.

(** ** The claims about the transports *)

Section TransportClaims.

Import http Scenarios.
Local Open Scope Z_scope.

(** C2: retry classification.  [shouldRetry] is true exactly for 429 and
    for the statuses from 500 to 504, and false for every other status; in
    particular for 200, 301, 400, 401, 404 and 505. *)
Theorem shouldRetry_exactly :
  (forall code : Z,
      shouldRetry code = true <-> code = 429 \/ 500 <= code <= 504)
  /\ (forall code : Z,
      shouldRetry code = false <-> ~ (code = 429 \/ 500 <= code <= 504))
  /\ shouldRetry 200 = false /\ shouldRetry 301 = false
  /\ shouldRetry 400 = false /\ shouldRetry 401 = false
  /\ shouldRetry 404 = false /\ shouldRetry 505 = false.
Proof.
  assert (H : forall code : Z,
             shouldRetry code = true <-> code = 429 \/ 500 <= code <= 504).
  { intros code. unfold shouldRetry, StatusTooManyRequests,
      StatusInternalServerError, StatusGatewayTimeout.
    rewrite orb_true_iff, andb_true_iff, Z.eqb_eq, Z.geb_le, Z.leb_le. lia. }
  split; [exact H|]. split; [|repeat split].
  intros code. rewrite <- H. now destruct (shouldRetry code).
Qed.

(** C3: retry count bound.  With [maxRetries = 3] and a base transport
    that answers 500 at every call, while the context is not done during a
    wait and the body factory does not fail, [RoundTrip] calls the base
    transport exactly four times and returns the response of the fourth
    call, whose status is 500, with a nil error. *)
Theorem always_500_four_attempts (tr : retryTransport.t) (req : Request.t) :
  retryTransport.maxRetries tr = 3 ->
  (forall n rq, exists r,
      retryTransport.base tr n rq = (Some r, None)
      /\ Response.StatusCode r = 500) ->
  never_done req ->
  clone_ok req ->
  exists rq r,
    fst (retryTransport.RoundTrip tr req) = Return (Some r, None)
    /\ Response.StatusCode r = 500
    /\ retryTransport.base tr 3%nat rq = (Some r, None)
    /\ round_trips (snd (retryTransport.RoundTrip tr req)) = 4%nat.
Proof.
  intros Hmax Hbase Hnd Hok. unfold retryTransport.RoundTrip.
  rewrite Hmax. change (Z.to_nat (GoInt.add 3 1)) with 4%nat.
  destruct (Run_always_retryable tr _ _ _ _ _ _
              (attempts_Run tr 4 0 req None)) as (rq & r & Hout & Hlast & Hcount);
    try assumption; try lia.
  - intros k rq. destruct (Hbase k rq) as (r & Hr & Hstatus).
    exists r. split; [exact Hr|]. now rewrite Hstatus.
  - exists rq, r. repeat split; try assumption.
    destruct (Hbase 3%nat rq) as (r' & Hr' & Hstatus).
    cbn [Nat.add Nat.sub] in Hlast. congruence.
Qed.

Lemma always_500_four_attempts_witness :
  exists rq r,
    fst (retryTransport.RoundTrip (test_transport (always 500)) post_request)
    = Return (Some r, None)
    /\ Response.StatusCode r = 500
    /\ retryTransport.base (test_transport (always 500)) 3%nat rq = (Some r, None)
    /\ round_trips
         (snd (retryTransport.RoundTrip (test_transport (always 500)) post_request))
       = 4%nat.
Proof.
  apply (always_500_four_attempts (test_transport (always 500)) post_request).
  - reflexivity.
  - intros n rq. eexists. split; reflexivity.
  - intros attempt delay. reflexivity.
  - intros get n [= <-]. reflexivity.
Defined.

(** C4: transport error.  When a call of the base transport made by
    [RoundTrip] returns an error, [RoundTrip] returns a nil response and
    that error wrapped under the prefix of the source; that call is the
    last thing [RoundTrip] does, so the base transport has been called
    once per attempt up to that one and never again, whatever the number
    of retries left. *)
Theorem transport_error_is_terminal
    (tr : retryTransport.t) (req : Request.t)
    (k : nat) (rq : Request.t) (r : option Response.t) (e : error) :
  In (EvRoundTrip k rq (r, Some e)) (snd (retryTransport.RoundTrip tr req)) ->
  fst (retryTransport.RoundTrip tr req)
  = Return (None, Some (fmt.Errorf_w "round trip: " e))
  /\ errors.Unwrap (fmt.Errorf_w "round trip: " e) = Some e
  /\ last_event (snd (retryTransport.RoundTrip tr req))
     = Some (EvRoundTrip k rq (r, Some e))
  /\ round_trips (snd (retryTransport.RoundTrip tr req)) = S k.
Proof.
  intros Hin. unfold retryTransport.RoundTrip in *.
  destruct (Run_transport_error_final tr _ _ _ _ _ _
              (attempts_Run tr _ 0 req None) _ _ _ _ Hin)
    as (Hout & Hlast & _ & Hcount).
  repeat split; assumption.
Qed.

Lemma transport_error_is_terminal_witness :
  fst (retryTransport.RoundTrip (test_transport refused_at_second) get_request)
  = Return (None, Some (wrapError "round trip: connection refused"
                                  (errorString "connection refused")))
  /\ round_trips
       (snd (retryTransport.RoundTrip (test_transport refused_at_second) get_request))
     = 2%nat.
Proof.
  destruct (transport_error_is_terminal (test_transport refused_at_second)
              get_request 1 get_request None (errorString "connection refused"))
    as (Hout & _ & _ & Hcount).
  - vm_compute. tauto.
  - split; [exact Hout | exact Hcount].
Defined.

Lemma wrapError_neq (e : error) : forall msg, wrapError msg e <> e.
Proof.
  induction e as [m|m e IH]; intros msg H; [discriminate H|].
  injection H as _ H. exact (IH _ H).
Qed.

(** The errors of the three failing exits of [RoundTrip] are told apart by
    their messages. *)
Lemma retry_wait_error_distinct (e e' : error) :
  fmt.Errorf_w "retry wait: " e <> fmt.Errorf_w "round trip: " e'
  /\ fmt.Errorf_w "retry wait: " e <> fmt.Errorf_w "cloning request body: " e'.
Proof. split; intros H; discriminate H. Qed.

(** C5: cancellation interrupts backoff.  When an attempt [k] before the
    last one has got a retryable status, so that a backoff wait follows, and
    the context is done during that wait, [RoundTrip] returns a nil response
    and the error of the context wrapped under the prefix of the source;
    [errors.Is] finds the context's error in it, and it differs from the
    error of a failed round trip or of a failed body clone, while an
    exhausted retry budget returns no error at all.  The trace ends with
    the round trip of attempt [k], the close of its body and the interrupted
    wait, which is the only interrupted wait: nothing is done after it, and
    the base transport has been called [k + 1] times, fewer than the
    [maxRetries + 1] calls of the full budget. *)
Theorem cancellation_interrupts_backoff
    (tr : retryTransport.t) (req : Request.t)
    (k : nat) (rq : Request.t) (r : Response.t) (e : error) :
  In (EvRoundTrip k rq (Some r, None)) (snd (retryTransport.RoundTrip tr req)) ->
  shouldRetry (Response.StatusCode r) = true ->
  Z.of_nat k < retryTransport.maxRetries tr ->
  context.select_done (Request.Context req) k (retryTransport.delay tr k) = Some e ->
  fst (retryTransport.RoundTrip tr req)
  = Return (None, Some (fmt.Errorf_w "retry wait: " e))
  /\ errors.Is (fmt.Errorf_w "retry wait: " e) e
  /\ (forall e', fmt.Errorf_w "retry wait: " e <> fmt.Errorf_w "round trip: " e'
                 /\ fmt.Errorf_w "retry wait: " e
                    <> fmt.Errorf_w "cloning request body: " e')
  /\ (exists pre,
         snd (retryTransport.RoundTrip tr req)
         = (pre ++ [EvRoundTrip k rq (Some r, None);
                    EvClose k (Response.Body r);
                    EvDone k (retryTransport.delay tr k) e])%list)
  /\ last_event (snd (retryTransport.RoundTrip tr req))
     = Some (EvDone k (retryTransport.delay tr k) e)
  /\ (forall k' d' e',
         In (EvDone k' d' e') (snd (retryTransport.RoundTrip tr req)) ->
         EvDone k' d' e' = EvDone k (retryTransport.delay tr k) e)
  /\ round_trips (snd (retryTransport.RoundTrip tr req)) = S k
  /\ Z.of_nat (round_trips (snd (retryTransport.RoundTrip tr req)))
     < retryTransport.maxRetries tr + 1.
Proof.
  intros Hin Hstatus Hk Hdone. unfold retryTransport.RoundTrip in *.
  pose proof (attempts_Run tr
                (Z.to_nat (GoInt.add (retryTransport.maxRetries tr) 1)) 0 req None)
    as HRun.
  destruct (Run_done_during_wait tr _ _ _ _ _ _ HRun _ _ _ _ Hin Hstatus Hk Hdone)
    as (Hout & (pre & Hevs) & _ & Hcount).
  replace (S k - 0)%nat with (S k) in Hcount by lia.
  assert (Hlast : last_event
                    (snd (retryTransport.attempts tr
                            (Z.to_nat (GoInt.add (retryTransport.maxRetries tr) 1))
                            0 req None))
                  = Some (EvDone k (retryTransport.delay tr k) e)).
  { rewrite Hevs, last_event_app_cons. reflexivity. }
  repeat split; try assumption.
  - apply errors.Is_wrapped, errors.Is_here.
  - apply retry_wait_error_distinct.
  - apply retry_wait_error_distinct.
  - now exists pre.
  - intros k' d' e' Hin'.
    destruct (Run_cancelled_final tr _ _ _ _ _ _ HRun _ _ _ Hin') as (_ & Hlast' & _).
    rewrite Hlast in Hlast'. now injection Hlast' as <- <- <-.
  - rewrite Hcount. lia.
Qed.

Lemma cancellation_interrupts_backoff_witness :
  fst (retryTransport.RoundTrip (test_transport (always 500)) cancelled_later_request)
  = Return (None, Some (wrapError "retry wait: context canceled" context.Canceled))
  /\ round_trips
       (snd (retryTransport.RoundTrip (test_transport (always 500))
               cancelled_later_request))
     = 2%nat.
Proof.
  destruct (cancellation_interrupts_backoff (test_transport (always 500))
              cancelled_later_request 1 cancelled_later_request
              {| Response.StatusCode := 500; Response.Body := 1%nat |}
              context.Canceled)
    as (Hout & _ & _ & _ & _ & _ & Hcount & _).
  - vm_compute. tauto.
  - reflexivity.
  - cbn. lia.
  - reflexivity.
  - split; [exact Hout | exact Hcount].
Defined.

(** C6, as the claim states it: the logging transport would return the
    very pair that the base transport returns.  When the base transport
    fails, the error that comes back is another value: the base error
    wrapped under the prefix of the logging transport. *)
Lemma logging_changes_the_error :
  ~ (forall (lt : loggingTransport.t) (since : Z) (req : Request.t),
        fst (loggingTransport.RoundTrip lt since req)
        = Return (loggingTransport.base lt 0%nat req)).
Proof.
  intros H.
  specialize (H {| loggingTransport.base := refusing |} 0 get_request).
  discriminate H.
Qed.

(** C6, amended: the logging transport calls the base transport once and
    keeps the kind of outcome.  A response that comes with a nil error is
    returned as it is, with a nil error.  An error of the base transport
    is returned wrapped under the prefix of the source, with a nil
    response: the base error is what [Unwrap] gives, not the value
    returned. *)
Theorem logging_keeps_outcome
    (lt : loggingTransport.t) (since : Z) (req : Request.t) :
  match loggingTransport.base lt 0%nat req with
  | (Some resp, None) =>
      fst (loggingTransport.RoundTrip lt since req) = Return (Some resp, None)
  | (_, Some err) =>
      fst (loggingTransport.RoundTrip lt since req)
      = Return (None, Some (fmt.Errorf_w "logging round trip: " err))
      /\ errors.Unwrap (fmt.Errorf_w "logging round trip: " err) = Some err
      /\ fmt.Errorf_w "logging round trip: " err <> err
  | (None, None) => fst (loggingTransport.RoundTrip lt since req) = Panic
  end.
Proof.
  unfold loggingTransport.RoundTrip.
  destruct (loggingTransport.base lt 0%nat req) as [[resp|] [err|]];
    cbn [fst]; try reflexivity.
  all: repeat split; try reflexivity.
  all: apply wrapError_neq.
Qed.

(** C7, as the claim states it: on every exit the body of each response
    would be closed before the next attempt or the return.  On the success
    exit the response is returned with its body open: no close happens at
    all. *)
Lemma returned_body_is_not_closed :
  ~ (forall (tr : retryTransport.t) (req : Request.t),
        bodies_released (snd (retryTransport.RoundTrip tr req)) = true).
Proof.
  intros H. specialize (H (test_transport (always 200)) get_request).
  vm_compute in H. discriminate H.
Qed.

(** C7, amended: the body of an attempt's response is closed exactly when
    the response came with a nil error, has a retryable status and the
    attempt is not the last one; the close is the very next effect after the
    round trip and comes before the backoff wait, hence before the next
    attempt begins and before a cancellation return.  When [RoundTrip]
    returns a response (a status that is not retried, or a retried status
    at the last attempt), that response is the answer of the last call,
    every earlier body has been closed, and the body of the returned
    response is open: closing it is left to the caller.  A response that the
    base transport returns together with an error is dropped with the error
    return, and its body is not closed. *)
Theorem bodies_closed_unless_returned
    (tr : retryTransport.t) (req : Request.t) :
  - 2 ^ 63 <= retryTransport.maxRetries tr < 2 ^ 63 ->
  scoped_release (fst (retryTransport.RoundTrip tr req))
                 (snd (retryTransport.RoundTrip tr req))
  /\ (forall pre k rq r post,
         snd (retryTransport.RoundTrip tr req)
         = (pre ++ EvRoundTrip k rq (Some r, None) :: post)%list ->
         (post = []
          /\ fst (retryTransport.RoundTrip tr req) = Return (Some r, None)
          /\ (shouldRetry (Response.StatusCode r) = false
              \/ retryTransport.maxRetries tr <= Z.of_nat k))
         \/ (exists e,
                post = [EvClose k (Response.Body r);
                        EvDone k (retryTransport.delay tr k) e]
                /\ fst (retryTransport.RoundTrip tr req)
                   = Return (None, Some (fmt.Errorf_w "retry wait: " e)))
         \/ (exists ev post',
                post = EvClose k (Response.Body r)
                         :: EvTimer k (retryTransport.delay tr k) :: ev :: post'
                /\ starts_attempt (S k) ev))
  /\ (forall pre k rq ro e post,
         snd (retryTransport.RoundTrip tr req)
         = (pre ++ EvRoundTrip k rq (ro, Some e) :: post)%list ->
         post = []
         /\ fst (retryTransport.RoundTrip tr req)
            = Return (None, Some (fmt.Errorf_w "round trip: " e)))
  /\ (forall pre k b post,
         snd (retryTransport.RoundTrip tr req) = (pre ++ EvClose k b :: post)%list ->
         exists pre' rq r,
           pre = (pre' ++ [EvRoundTrip k rq (Some r, None)])%list
           /\ b = Response.Body r
           /\ shouldRetry (Response.StatusCode r) = true
           /\ Z.of_nat k < retryTransport.maxRetries tr).
Proof.
  intros Hrange. unfold retryTransport.RoundTrip.
  pose proof (attempts_Run tr
                (Z.to_nat (GoInt.add (retryTransport.maxRetries tr) 1)) 0 req None)
    as HRun.
  split; [|split; [|split]].
  - destruct (iterations_in_range tr Hrange) as [-> | Hn]; [reflexivity|].
    destruct (Z.to_nat (GoInt.add (retryTransport.maxRetries tr) 1)) as [|n] eqn:E;
      [reflexivity|].
    apply (Run_scoped_release tr _ _ _ _ _ _ HRun); lia.
  - destruct (iterations_in_range tr Hrange) as [H0 | Hn].
    + rewrite H0. intros pre k rq r post H. now apply nil_split in H.
    + destruct (Z.to_nat (GoInt.add (retryTransport.maxRetries tr) 1)) as [|n] eqn:E.
      * intros pre k rq r post H. now apply nil_split in H.
      * apply (Run_after_response tr _ _ _ _ _ _ HRun); lia.
  - apply (Run_after_error tr _ _ _ _ _ _ HRun).
  - apply (Run_before_close tr _ _ _ _ _ _ HRun).
Qed.

Lemma bodies_closed_unless_returned_witness :
  scoped_release
    (fst (retryTransport.RoundTrip (test_transport (always 500)) post_request))
    (snd (retryTransport.RoundTrip (test_transport (always 500)) post_request)).
Proof.
  apply (bodies_closed_unless_returned (test_transport (always 500)) post_request).
  cbn. lia.
Defined.

End TransportClaims.

(* ------------------------------------------------------------------ *)
(** * Further properties of the codec *)

(** ** Patterns of any length *)

Section PatternFacts.

Local Open Scope string_scope.
Local Open Scope nat_scope.

Lemma prefix_cons (a : ascii) (p : string) (c : ascii) (s : string) :
  prefix (String a p) (String c s) = Ascii.eqb c a && prefix p s.
Proof.
  cbn [prefix]. destruct (ascii_dec a c) as [->|Hne].
  - now rewrite Ascii.eqb_refl.
  - replace (Ascii.eqb c a) with false; [reflexivity|].
    symmetry. apply Ascii.eqb_neq. congruence.
Qed.

Lemma prefix_length (p s : string) :
  prefix p s = true -> length p <= length s.
Proof.
  revert s. induction p as [|a p IH]; intros s H; [cbn; lia|].
  destruct s as [|c s]; [discriminate H|].
  rewrite prefix_cons in H. apply andb_prop in H as [_ H].
  specialize (IH s H). cbn [length]. lia.
Qed.

Lemma length_append (x y : string) : length (x ++ y) = length x + length y.
Proof. induction x as [|c x IH]; cbn [append length]; [reflexivity | now rewrite IH]. Qed.

Lemma contains_cons (c : ascii) (s p : string) :
  contains (String c s) p = prefix p (String c s) || contains s p.
Proof. reflexivity. Qed.

Lemma contains_empty (p : string) : contains EmptyString p = prefix p EmptyString.
Proof. cbn [contains]. apply orb_false_r. Qed.

(** A pattern that begins with a byte absent from the text does not occur
    in it. *)
Lemma contains_head_absent (o : ascii) (p s : string) :
  byte_in o s = false -> contains s (String o p) = false.
Proof.
  induction s as [|c s IH]; [reflexivity|].
  cbn [byte_in]. intros [Hc Hs]%orb_false_elim.
  rewrite contains_cons, prefix_cons, (IH Hs), orb_false_r.
  rewrite Ascii.eqb_sym, Hc. reflexivity.
Qed.

(** Bytes that are no part of the pattern, put before a text, bring no
    occurrence of the pattern. *)
Lemma contains_append_disjoint (x y p : string) :
  disjoint x p = true -> nonempty p = true ->
  contains (x ++ y) p = contains y p.
Proof.
  intros Hx Hp. destruct p as [|o p]; [discriminate Hp|].
  induction x as [|c x IH]; [reflexivity|].
  cbn [disjoint all_bytes_of] in Hx. apply andb_prop in Hx as [Hc Hx].
  cbn [append]. rewrite contains_cons, prefix_cons, (IH Hx).
  cbn [byte_in] in Hc. apply negb_true_iff, orb_false_elim in Hc as [Hc _].
  now rewrite Hc.
Qed.

Variables (old new : string).

(** An absent pattern: nothing to replace. *)
Lemma ReplaceAll_absent (s : string) :
  contains s old = false -> strings.ReplaceAll s old new = s.
Proof.
  unfold strings.ReplaceAll. destruct old as [|o p] eqn:Eold; [reflexivity|].
  induction s as [|c s IH]; [reflexivity|].
  rewrite contains_cons. intros [Hp Hs]%orb_false_elim.
  cbn [strings.replace_scan]. rewrite Hp. now rewrite (IH Hs).
Qed.

(** A replacement that is not longer than the pattern does not lengthen the
    text. *)
Lemma replace_scan_length (s : string) :
  length new <= length old ->
  nonempty old = true ->
  forall skip, length (strings.replace_scan old new skip s) <= length s - skip.
Proof.
  intros Hlen Hold. induction s as [|c s IH]; intros skip; [cbn; lia|].
  cbn [strings.replace_scan]. destruct skip as [|k].
  - destruct (prefix old (String c s)) eqn:Hp.
    + apply prefix_length in Hp. specialize (IH (length old - 1)).
      rewrite length_append. cbn [length] in *.
      destruct old; [discriminate Hold|]. cbn [length] in *. lia.
    + specialize (IH 0). cbn [length]. lia.
  - specialize (IH k). cbn [length]. lia.
Qed.

Lemma ReplaceAll_length (s : string) :
  length new <= length old ->
  length (strings.ReplaceAll s old new) <= length s.
Proof.
  intros Hlen. unfold strings.ReplaceAll.
  destruct (nonempty old) eqn:Hne.
  - pose proof (replace_scan_length s Hlen Hne 0).
    destruct old; [discriminate Hne|]. lia.
  - destruct old; [lia | discriminate Hne].
Qed.

(** As far as a text [p] without the first byte of the replacement goes, the
    scan has copied its input. *)
Lemma prefix_replace_scan (n0 : ascii) (new' : string) (p : string) :
  new = String n0 new' ->
  byte_in n0 p = false ->
  forall t, prefix p (strings.replace_scan old new 0 t) = true -> prefix p t = true.
Proof.
  intros Hnew. induction p as [|a p IH]; intros Hp t H; [now destruct t|].
  cbn [byte_in] in Hp. apply orb_false_elim in Hp as [Ha Hp].
  destruct t as [|c t]; [discriminate H|].
  cbn [strings.replace_scan] in H. destruct (prefix old (String c t)).
  - rewrite Hnew in H. cbn [append] in H. rewrite prefix_cons in H.
    rewrite Ha in H. discriminate H.
  - rewrite prefix_cons in *. apply andb_prop in H as [-> H].
    now rewrite (IH Hp t H).
Qed.

End PatternFacts.

Section CleanFacts.

Local Open Scope string_scope.
Local Open Scope nat_scope.

Lemma disjoint_head (n0 : ascii) (new' q : string) :
  disjoint (String n0 new') q = true -> byte_in n0 q = false.
Proof.
  cbn [disjoint all_bytes_of]. now intros [H%negb_true_iff _]%andb_prop.
Qed.

Lemma byte_in_tail (n0 o : ascii) (p : string) :
  byte_in n0 (String o p) = false -> byte_in n0 p = false.
Proof. cbn [byte_in]. now intros [_ H]%orb_false_elim. Qed.

(** A pass leaves no occurrence of its own pattern, when the replacement
    is not empty and shares no byte with it. *)
Lemma replace_scan_clean (old new : string) :
  keeps_out [old] (old, new) = true ->
  forall s skip, contains (strings.replace_scan old new skip s) old = false.
Proof.
  unfold keeps_out. cbn [fst snd forallb].
  intros [[Hold Hnew]%andb_prop [Hdis _]%andb_prop]%andb_prop.
  destruct new as [|n0 new']; [discriminate Hnew|].
  destruct old as [|o p]; [discriminate Hold|].
  induction s as [|c s IH]; intros skip; [reflexivity|].
  cbn [strings.replace_scan]. destruct skip as [|k]; [|apply IH].
  destruct (prefix (String o p) (String c s)) eqn:Hp.
  - rewrite contains_append_disjoint; [apply IH | exact Hdis | reflexivity].
  - rewrite contains_cons, IH, orb_false_r.
    destruct (prefix (String o p)
                (String c (strings.replace_scan (String o p) (String n0 new') 0 s)))
      eqn:Hq; [|reflexivity].
    rewrite <- Hp. rewrite prefix_cons in Hq |- *.
    apply andb_prop in Hq as [-> Hq]. cbn [andb]. symmetry.
    apply (prefix_replace_scan (String o p) (String n0 new') n0 new' p eq_refl);
      [|exact Hq].
    eapply byte_in_tail, disjoint_head, Hdis.
Qed.

(** A pass brings no occurrence of a pattern [q] that the text did not
    hold, when the replacement is not empty and shares no byte with [q]. *)
Lemma replace_scan_keeps_out (old new q : string) :
  keeps_out [q] (old, new) = true ->
  forall s skip,
    contains s q = false ->
    contains (strings.replace_scan old new skip s) q = false.
Proof.
  unfold keeps_out. cbn [fst snd forallb].
  intros [[Hold Hnew]%andb_prop [Hdis _]%andb_prop]%andb_prop.
  destruct new as [|n0 new']; [discriminate Hnew|].
  destruct q as [|o p].
  { intros s skip H. now destruct s. }
  induction s as [|c s IH]; intros skip Hs; [exact Hs|].
  rewrite contains_cons in Hs. apply orb_false_elim in Hs as [Hp Hs].
  cbn [strings.replace_scan]. destruct skip as [|k]; [|now apply IH].
  destruct (prefix old (String c s)).
  - rewrite contains_append_disjoint; [now apply IH | exact Hdis | reflexivity].
  - rewrite contains_cons, (IH 0 Hs), orb_false_r.
    destruct (prefix (String o p)
                (String c (strings.replace_scan old (String n0 new') 0 s)))
      eqn:Hq; [|reflexivity].
    rewrite <- Hp. rewrite prefix_cons in Hq |- *.
    apply andb_prop in Hq as [-> Hq]. cbn [andb]. symmetry.
    apply (prefix_replace_scan old (String n0 new') n0 new' p eq_refl);
      [|exact Hq].
    eapply byte_in_tail, disjoint_head, Hdis.
Qed.

End CleanFacts.

Section RuleFacts.

Local Open Scope string_scope.
Local Open Scope nat_scope.

Lemma ReplaceAll_clean (old new s : string) :
  keeps_out [old] (old, new) = true ->
  contains (strings.ReplaceAll s old new) old = false.
Proof.
  intros H. unfold strings.ReplaceAll. destruct old as [|o p]; [discriminate H|].
  now apply replace_scan_clean.
Qed.

Lemma ReplaceAll_keeps_out (old new q s : string) :
  keeps_out [q] (old, new) = true ->
  contains s q = false ->
  contains (strings.ReplaceAll s old new) q = false.
Proof.
  intros H Hs. unfold strings.ReplaceAll. destruct old as [|o p]; [exact Hs|].
  now apply replace_scan_keeps_out.
Qed.

Lemma keeps_out_In (patterns : list string) (r : rule) (q : string) :
  keeps_out patterns r = true -> In q patterns -> keeps_out [q] r = true.
Proof.
  unfold keeps_out. intros [H Hall]%andb_prop Hq.
  rewrite H. cbn [forallb andb]. rewrite andb_true_r.
  rewrite forallb_forall in Hall. now apply Hall.
Qed.

Lemma apply_rules_absent (rules : list rule) :
  forall text,
    (forall r, In r rules -> contains text (fst r) = false) ->
    apply_rules rules text = text.
Proof.
  induction rules as [|r rules IH]; intros text H; [reflexivity|].
  rewrite apply_rules_cons. unfold apply_rule.
  rewrite ReplaceAll_absent by (apply H; now left).
  apply IH. intros r' Hr'. apply H. now right.
Qed.

Lemma apply_rules_keep_out (q : string) (rules : list rule) :
  forallb (keeps_out [q]) rules = true ->
  forall text,
    contains text q = false -> contains (apply_rules rules text) q = false.
Proof.
  induction rules as [|[old new] rules IH]; intros H text Hq; [exact Hq|].
  cbn [forallb] in H. apply andb_prop in H as [Hr Hrules].
  rewrite apply_rules_cons. apply (IH Hrules).
  now apply ReplaceAll_keeps_out.
Qed.

(** Rules whose replacements share no byte with any of their patterns leave
    none of their patterns in the text. *)
Lemma apply_rules_clean (patterns : list string) (rules : list rule) :
  forallb (keeps_out patterns) rules = true ->
  forall text r,
    In r rules -> In (fst r) patterns ->
    contains (apply_rules rules text) (fst r) = false.
Proof.
  induction rules as [|[old new] rules IH]; intros H text r Hr Hq; [contradiction|].
  cbn [forallb] in H. apply andb_prop in H as [H0 Hrules].
  rewrite apply_rules_cons. destruct Hr as [<- | Hr].
  - cbn [fst] in *. apply apply_rules_keep_out.
    + apply forallb_forall. intros r' Hr'.
      rewrite forallb_forall in Hrules. exact (keeps_out_In _ _ _ (Hrules r' Hr') Hq).
    + apply ReplaceAll_clean. exact (keeps_out_In _ _ _ H0 Hq).
  - now apply IH.
Qed.

Lemma apply_rules_length (rules : list rule) :
  forallb shrinking rules = true ->
  forall text, length (apply_rules rules text) <= length text.
Proof.
  induction rules as [|[old new] rules IH]; intros H text; [cbn; lia|].
  cbn [forallb] in H. apply andb_prop in H as [Hr Hrules].
  rewrite apply_rules_cons. specialize (IH Hrules (apply_rule text (old, new))).
  unfold shrinking in Hr. cbn [fst snd] in Hr. apply Nat.leb_le in Hr.
  pose proof (ReplaceAll_length old new text Hr). unfold apply_rule in *.
  cbn [fst snd] in *. lia.
Qed.

Lemma contains_byte (c : ascii) (s : string) :
  contains s (str1 c) = byte_in c s.
Proof.
  induction s as [|d s IH]; [reflexivity|].
  rewrite contains_cons, (prefix_one c d s), IH. cbn [byte_in].
  now rewrite Ascii.eqb_sym.
Qed.

Lemma NormalizeQuotes_rules (text : string) :
  NormalizeQuotes text = apply_rules normalize_rules text.
Proof. reflexivity. Qed.

End RuleFacts.

(** ** Normalization, alphabet, lengths and injectivity *)

Section CodecExtras.

Local Open Scope string_scope.
Local Open Scope nat_scope.

(** X1: [NormalizeQuotes] leaves none of the five sequences it rewrites (the
    UTF-8 forms of U+2019, U+201C, U+201D, U+2013, U+2014) in its output,
    whatever the input; so normalizing an already normalized text changes
    nothing. *)
Theorem NormalizeQuotes_clean_idempotent (text : string) :
  (forall q,
      In q [RIGHT_SINGLE_QUOTE; LEFT_DOUBLE_QUOTE; RIGHT_DOUBLE_QUOTE;
            EN_DASH; EM_DASH] ->
      contains (NormalizeQuotes text) q = false)
  /\ NormalizeQuotes (NormalizeQuotes text) = NormalizeQuotes text.
Proof.
  assert (Hclean : forall r, In r normalize_rules ->
                     contains (NormalizeQuotes text) (fst r) = false).
  { intros r Hr. rewrite NormalizeQuotes_rules.
    apply (apply_rules_clean (map fst normalize_rules)); [reflexivity | exact Hr |].
    now apply in_map. }
  split.
  - intros q Hq. change (In q (map fst normalize_rules)) in Hq.
    apply in_map_iff in Hq as (r & <- & Hr). now apply Hclean.
  - rewrite (NormalizeQuotes_rules (NormalizeQuotes text)).
    now apply apply_rules_absent.
Qed.

(** X2: a text without the byte 0xE2, in particular every ASCII text, is
    returned unchanged by [NormalizeQuotes]. *)
Theorem NormalizeQuotes_ascii (text : string) :
  byte_in "226" text = false -> NormalizeQuotes text = text.
Proof.
  intros H. rewrite NormalizeQuotes_rules. apply apply_rules_absent.
  intros r Hr. cbn [normalize_rules In] in Hr.
  repeat (destruct Hr as [<- | Hr]; [now apply contains_head_absent|]).
  contradiction.
Qed.

Lemma NormalizeQuotes_ascii_witness :
  NormalizeQuotes "say hi -- it's me" = "say hi -- it's me".
Proof. apply (NormalizeQuotes_ascii "say hi -- it's me"). reflexivity. Defined.

(** X3: neither [NormalizeQuotes] nor [Decode] ever lengthens a text. *)
Theorem NormalizeQuotes_Decode_shrink (text : string) :
  length (NormalizeQuotes text) <= length text
  /\ length (Decode text) <= length text.
Proof.
  split.
  - rewrite NormalizeQuotes_rules. now apply apply_rules_length.
  - rewrite Decode_rules. now apply apply_rules_length.
Qed.

(** X4: the output of [Decode] holds neither placeholder byte (\x00, \x01),
    whatever the input. *)
Theorem Decode_no_placeholder (text : string) :
  all_bytes_of (fun c => negb (placeholder c)) (Decode text) = true.
Proof.
  assert (Hnul : byte_in NUL (Decode text) = false).
  { rewrite <- contains_byte, Decode_rules.
    change decode_rules
      with (firstn 12 decode_rules ++ (str1 NUL, "_") :: skipn 13 decode_rules)%list.
    rewrite apply_rules_app, apply_rules_cons.
    apply apply_rules_keep_out; [reflexivity|].
    now apply ReplaceAll_clean. }
  assert (Hsoh : byte_in SOH (Decode text) = false).
  { rewrite <- contains_byte, Decode_rules.
    change decode_rules
      with (firstn 14 decode_rules ++ [(str1 SOH, "-")])%list.
    rewrite apply_rules_app, apply_rules_cons.
    now apply ReplaceAll_clean. }
  revert Hnul Hsoh. generalize (Decode text) as s. clear text.
  induction s as [|c s IH]; [reflexivity|].
  cbn [byte_in all_bytes_of].
  intros [Hc1 Hs1]%orb_false_elim [Hc2 Hs2]%orb_false_elim.
  rewrite (IH Hs1 Hs2), andb_true_r. unfold placeholder.
  rewrite (Ascii.eqb_sym c NUL), (Ascii.eqb_sym c SOH), Hc1, Hc2. reflexivity.
Qed.

(** X5: [Encode] works byte by byte, so the encoding of a concatenation is
    the concatenation of the encodings; and the encoding of a text is empty
    only for the empty text. *)
Theorem Encode_append (x y : string) :
  Encode (x ++ y) = Encode x ++ Encode y
  /\ (Encode x = EmptyString <-> x = EmptyString).
Proof.
  split.
  - now rewrite !Encode_bytewise, concat_map_append.
  - split; [|now intros ->].
    rewrite Encode_bytewise. destruct x as [|c x]; [reflexivity|].
    cbn [concat_map]. intros H. exfalso.
    assert (Hc : nonempty (Encode (str1 c)) = true).
    { revert c H. intros c _. revert c. apply forall_bytes. vm_compute. reflexivity. }
    destruct (Encode (str1 c)); discriminate.
Qed.

(** X6: the output of [Encode] holds none of the bytes it is meant to
    remove: no space, and none of the special characters
    ? % # double-quote / backslash newline & < >. *)
Theorem Encode_removes_reserved (s : string) :
  all_bytes_of (fun c => negb (reserved c)) (Encode s) = true.
Proof.
  rewrite Encode_bytewise. induction s as [|c s IH]; [reflexivity|].
  cbn [concat_map]. rewrite all_bytes_of_append, IH, andb_true_r.
  revert c. apply forall_bytes. vm_compute. reflexivity.
Qed.

(** X7: [Encode] at most doubles the length of a text, and never shortens
    it. *)
Theorem Encode_length (s : string) :
  length s <= length (Encode s) <= 2 * length s.
Proof.
  rewrite Encode_bytewise. induction s as [|c s IH]; [cbn; lia|].
  cbn [concat_map length]. rewrite length_append.
  assert (Hc : 1 <= length (Encode (str1 c)) <= 2).
  { assert (H : Nat.leb 1 (length (Encode (str1 c)))
                && Nat.leb (length (Encode (str1 c))) 2 = true).
    { revert c. apply forall_bytes. vm_compute. reflexivity. }
    apply andb_prop in H as [H1%Nat.leb_le H2%Nat.leb_le]. lia. }
  lia.
Qed.

Lemma concat_map_decoded_safe (s : string) :
  all_bytes_of (fun c => negb (placeholder c)) s = true ->
  concat_map decoded_byte s = s.
Proof.
  induction s as [|c s IH]; [reflexivity|].
  cbn [all_bytes_of concat_map]. intros [Hc Hs]%andb_prop.
  rewrite (IH Hs). unfold decoded_byte, placeholder in *.
  apply negb_true_iff, orb_false_elim in Hc as [-> ->]. reflexivity.
Qed.

Lemma concat_map_decoded_fixed (s : string) :
  concat_map decoded_byte s = s ->
  all_bytes_of (fun c => negb (placeholder c)) s = true.
Proof.
  induction s as [|c s IH]; [reflexivity|].
  cbn [all_bytes_of concat_map]. unfold decoded_byte at 1.
  destruct (Ascii.eqb c NUL) eqn:Hnul.
  { apply Ascii.eqb_eq in Hnul as ->. intros H. discriminate H. }
  destruct (Ascii.eqb c SOH) eqn:Hsoh.
  { apply Ascii.eqb_eq in Hsoh as ->. intros H. discriminate H. }
  intros [= H]. rewrite (IH H), andb_true_r. unfold placeholder.
  now rewrite Hnul, Hsoh.
Qed.

(** X8: on a text without clashing neighbours (a space before a space or an
    underscore, an apostrophe before an apostrophe or a double quote, a
    tilde before an escape letter), [Encode] followed by [Decode] changes
    the placeholder bytes only: \x00 comes back as an underscore, \x01 as a
    dash, and every other byte as itself.  Such a text is therefore given
    back unchanged exactly when it holds no placeholder byte. *)
Theorem Decode_Encode_bytes (s : string) :
  adjacent_all (fun c d => negb (clash c d)) s = true ->
  Decode (Encode s) = concat_map decoded_byte s
  /\ (Decode (Encode s) = s
      <-> all_bytes_of (fun c => negb (placeholder c)) s = true).
Proof.
  intros Hadj. rewrite (Decode_Encode_blocks s Hadj).
  split; [reflexivity|]. split.
  - apply concat_map_decoded_fixed.
  - apply concat_map_decoded_safe.
Qed.

Lemma Decode_Encode_bytes_witness :
  Decode (Encode (String "a" (String NUL (String SOH "b")))) = "a_-b".
Proof.
  destruct (Decode_Encode_bytes (String "a" (String NUL (String SOH "b"))))
    as [H _]; [reflexivity | exact H].
Defined.

(** X9: [Encode] is injective on the texts that survive the round trip:
    two such texts with the same encoding are equal. *)
Theorem Encode_injective (s t : string) :
  roundtrip_safe s = true -> roundtrip_safe t = true ->
  Encode s = Encode t -> s = t.
Proof.
  unfold roundtrip_safe.
  intros [Hs1 Hs2]%andb_prop [Ht1 Ht2]%andb_prop H.
  rewrite <- (concat_map_decoded_safe s Hs1), <- (concat_map_decoded_safe t Ht1).
  rewrite <- (Decode_Encode_blocks s Hs2), <- (Decode_Encode_blocks t Ht2).
  now rewrite H.
Qed.

Lemma Encode_injective_witness : "a_b c" = "a_b" ++ " c".
Proof. apply (Encode_injective "a_b c" ("a_b" ++ " c")); reflexivity. Defined.

End CodecExtras.

(* ------------------------------------------------------------------ *)
(** * Further properties of the transports *)

Section RunFacts.

Import http.
Local Open Scope Z_scope.

Variable tr : retryTransport.t.

Ltac run_cases HRun :=
  induction HRun as
    [ attempt req resp
    | n attempt req resp bodyErr Hclone
    | n attempt req resp req1 evs r0 err Hclone Hres
    | n attempt req resp req1 evs Hclone Hres
    | n attempt req resp req1 evs r0 Hclone Hres Hretry
    | n attempt req resp req1 evs r0 ctxErr Hclone Hres Hretry Hlt Hsel
    | n attempt req resp req1 evs r0 out rest Hclone Hres Hretry Hlt Hsel HRun IH
    | n attempt req resp req1 evs r0 out rest Hclone Hres Hretry Hge HRun IH ].

Ltac In_cases Hclone Hin :=
  apply in_app_or in Hin; destruct Hin as [Hin|Hin];
  [ apply (clone_body_In _ _ _ _ _ Hclone) in Hin; discriminate Hin
  | cbn [In] in Hin;
    repeat match type of Hin with
           | _ \/ _ => destruct Hin as [Hin|Hin]; [try discriminate Hin|]
           | False => contradiction
           end ].

Lemma round_trips_cons_round_trip k rq res (evs : list event) :
  round_trips (EvRoundTrip k rq res :: evs) = S (round_trips evs).
Proof. reflexivity. Qed.

Lemma round_trips_cons_close k b (evs : list event) :
  round_trips (EvClose k b :: evs) = round_trips evs.
Proof. reflexivity. Qed.

Lemma round_trips_cons_timer k d (evs : list event) :
  round_trips (EvTimer k d :: evs) = round_trips evs.
Proof. reflexivity. Qed.

Lemma round_trips_cons_done k d e (evs : list event) :
  round_trips (EvDone k d e :: evs) = round_trips evs.
Proof. reflexivity. Qed.

Lemma round_trips_nil : round_trips [] = 0%nat.
Proof. reflexivity. Qed.

(** One call of the base transport per iteration, at most. *)
Lemma Run_round_trips_le n attempt req resp out evs :
  Run tr n attempt req resp out evs -> (round_trips evs <= n)%nat.
Proof.
  intros HRun. run_cases HRun;
    rewrite ?(round_trips_clone _ _ _ _ _ Hclone),
      ?round_trips_cons_round_trip, ?round_trips_cons_close,
      ?round_trips_cons_timer, ?round_trips_cons_done, ?round_trips_nil;
    try lia.
  cbn. lia.
Qed.

(** An answer that is not retried ends the run at once. *)
Lemma Run_final_response n attempt0 req resp out evs :
  Run tr n attempt0 req resp out evs ->
  forall k rq r,
    In (EvRoundTrip k rq (Some r, None)) evs ->
    shouldRetry (Response.StatusCode r) = false ->
    out = Return (Some r, None)
    /\ last_event evs = Some (EvRoundTrip k rq (Some r, None))
    /\ (attempt0 <= k)%nat
    /\ round_trips evs = (S k - attempt0)%nat.
Proof.
  intros HRun. run_cases HRun; intros k rq r Hin Hstatus.
  - contradiction.
  - destruct Hin as [Hin|[]]. discriminate Hin.
  - In_cases Hclone Hin.
  - In_cases Hclone Hin.
  - In_cases Hclone Hin. injection Hin as <- <- <-.
    rewrite last_event_app_cons, (round_trips_clone _ _ _ _ _ Hclone),
      round_trips_cons_round_trip, round_trips_nil.
    repeat split; lia.
  - In_cases Hclone Hin. injection Hin as <- <- <-. congruence.
  - In_cases Hclone Hin; [injection Hin as <- <- <-; congruence|].
    destruct (IH _ _ _ Hin Hstatus) as (-> & Hlast & Hle & Hcount).
    rewrite last_event_app_cons, !last_event_cons, (round_trips_clone _ _ _ _ _ Hclone);
      try discriminate; [| exact (In_nonempty _ _ Hin)].
    rewrite round_trips_cons_round_trip, round_trips_cons_close, round_trips_cons_timer.
    repeat split; [exact Hlast | lia | lia].
  - In_cases Hclone Hin; [injection Hin as <- <- <-; congruence|].
    destruct (IH _ _ _ Hin Hstatus) as (-> & Hlast & Hle & Hcount).
    rewrite last_event_app_cons, !last_event_cons, (round_trips_clone _ _ _ _ _ Hclone);
      [| exact (In_nonempty _ _ Hin)].
    rewrite round_trips_cons_round_trip.
    repeat split; [exact Hlast | lia | lia].
Qed.

(** A retried status is returned only when the iterations are used up. *)
Lemma Run_retryable_returned n attempt req resp out evs :
  Run tr n attempt req resp out evs ->
  (0 < n)%nat ->
  Z.of_nat attempt + Z.of_nat n = retryTransport.maxRetries tr + 1 ->
  forall r,
    out = Return (Some r, None) ->
    shouldRetry (Response.StatusCode r) = true ->
    round_trips evs = n /\ forall k d e, ~ In (EvDone k d e) evs.
Proof.
  intros HRun. run_cases HRun; intros Hn Hinv r Hout Hstatus;
    try discriminate Hout.
  - lia.
  - injection Hout as <-. congruence.
  - destruct (IH ltac:(lia) ltac:(lia) r Hout Hstatus) as [Hcount Hdone].
    rewrite (round_trips_clone _ _ _ _ _ Hclone), round_trips_cons_round_trip,
      round_trips_cons_close, round_trips_cons_timer, Hcount.
    split; [reflexivity|]. intros k d e Hin. In_cases Hclone Hin.
    exact (Hdone _ _ _ Hin).
  - assert (n = 0%nat) by lia. subst n.
    apply Run_zero in HRun as [_ ->].
    rewrite (round_trips_clone _ _ _ _ _ Hclone).
    split; [reflexivity|]. intros k d e Hin. In_cases Hclone Hin.
Qed.

Lemma clone_body_failure attempt req bodyErr :
  retryTransport.clone_body attempt req = inl bodyErr ->
  exists get body,
    Request.GetBody req = Some get /\ get attempt = (body, Some bodyErr).
Proof.
  unfold retryTransport.clone_body.
  destruct (Request.Body req) as [b|]; [|discriminate].
  destruct (Request.GetBody req) as [get|]; [|discriminate].
  destruct (get attempt) as [body [e|]] eqn:E; [|discriminate].
  intros [= <-]. now exists get, body.
Qed.

(** What [clone_body] keeps of the request, and what it sends when there is
    no body factory or no body. *)
Lemma clone_body_keeps attempt req req1 evs :
  retryTransport.clone_body attempt req = inr (req1, evs) ->
  Request.Method req1 = Request.Method req
  /\ Request.URL req1 = Request.URL req
  /\ (Request.GetBody req = None \/ Request.Body req = None -> req1 = req)
  /\ (forall get,
         Request.GetBody req = Some get -> Request.Body req <> None ->
         Request.Body req1 = fst (get attempt)).
Proof.
  unfold retryTransport.clone_body.
  destruct (Request.Body req) as [b|]; [destruct (Request.GetBody req) as [get|]|].
  - destruct (get attempt) as [body [bodyErr|]] eqn:E; [discriminate|].
    intros [= <- <-]. repeat split.
    + intros [H|H]; discriminate H.
    + intros get' [= <-] _. now rewrite E.
  - intros [= <- <-]. repeat split. intros get' H. discriminate H.
  - intros [= <- <-]. repeat split. intros get' _ H. now contradiction H.
Qed.

(** A failure of the body factory ends the run before the base transport is
    called. *)
Lemma Run_clone_failure n attempt0 req resp out evs :
  Run tr n attempt0 req resp out evs ->
  forall e,
    out = Return (None, Some (fmt.Errorf_w "cloning request body: " e)) ->
    exists k get body,
      Request.GetBody req = Some get
      /\ get k = (body, Some e)
      /\ last_event evs = Some (EvGetBody k)
      /\ (attempt0 <= k)%nat
      /\ round_trips evs = (k - attempt0)%nat.
Proof.
  intros HRun. run_cases HRun; intros e Hout; try discriminate Hout.
  - injection Hout as _ <-.
    destruct (clone_body_failure _ _ _ Hclone) as (get & body & Hget & Hk).
    exists attempt, get, body. repeat split; try assumption; try lia.
    change (round_trips [EvGetBody attempt]) with 0%nat. lia.
  - destruct (IH e Hout) as (k & get & body & Hget & Hk & Hlast & Hle & Hcount).
    exists k, get, body.
    destruct (clone_body_inr _ _ _ _ Hclone) as (_ & _ & <-).
    assert (Hne : rest <> []) by (intros ->; discriminate Hlast).
    rewrite last_event_app_cons, !last_event_cons, (round_trips_clone _ _ _ _ _ Hclone);
      try discriminate; [|exact Hne].
    rewrite round_trips_cons_round_trip, round_trips_cons_close, round_trips_cons_timer.
    repeat split; try assumption; lia.
  - destruct (IH e Hout) as (k & get & body & Hget & Hk & Hlast & Hle & Hcount).
    exists k, get, body.
    destruct (clone_body_inr _ _ _ _ Hclone) as (_ & _ & <-).
    assert (Hne : rest <> []) by (intros ->; discriminate Hlast).
    rewrite last_event_app_cons, !last_event_cons, (round_trips_clone _ _ _ _ _ Hclone);
      [|exact Hne].
    rewrite round_trips_cons_round_trip.
    repeat split; try assumption; lia.
Qed.

(** Every wait of the run follows an attempt before the last one and lasts
    the delay of that attempt. *)
Lemma Run_waits n attempt0 req resp out evs :
  Run tr n attempt0 req resp out evs ->
  forall k d,
    In (EvTimer k d) evs \/ (exists e, In (EvDone k d e) evs) ->
    d = retryTransport.delay tr k /\ Z.of_nat k < retryTransport.maxRetries tr.
Proof.
  intros HRun. run_cases HRun; intros k d [Hin | [e Hin]];
    try contradiction;
    try (destruct Hin as [Hin|[]]; discriminate Hin);
    try (In_cases Hclone Hin; fail).
  - In_cases Hclone Hin. injection Hin as <- <- _. now split.
  - In_cases Hclone Hin; [injection Hin as <- <-; now split|].
    apply IH. now left.
  - In_cases Hclone Hin. apply IH. right. now exists e.
  - In_cases Hclone Hin. apply IH. now left.
  - In_cases Hclone Hin. apply IH. right. now exists e.
Qed.

(** Every request sent is the caller's request, but for its body. *)
Lemma Run_requests n attempt0 req resp out evs :
  Run tr n attempt0 req resp out evs ->
  forall k rq res,
    In (EvRoundTrip k rq res) evs ->
    Request.Method rq = Request.Method req
    /\ Request.URL rq = Request.URL req
    /\ Request.Context rq = Request.Context req
    /\ Request.GetBody rq = Request.GetBody req
    /\ retryTransport.base tr k rq = res
    /\ (Request.GetBody req = None \/ Request.Body req = None -> rq = req).
Proof.
  intros HRun. run_cases HRun; intros k rq res Hin;
    try contradiction;
    try (destruct Hin as [Hin|[]]; discriminate Hin);
    destruct (clone_body_inr _ _ _ _ Hclone) as (_ & Hctx & Hget);
    destruct (clone_body_keeps _ _ _ _ Hclone) as (Hm & Hu & Hsame & _);
    In_cases Hclone Hin;
    try (injection Hin as <- <- <-; repeat split; assumption).
  - destruct (IH _ _ _ Hin) as (-> & -> & -> & -> & Hres' & Hsame').
    repeat split; try assumption.
    intros H. rewrite <- (Hsame H). apply Hsame'.
    rewrite (Hsame H). exact H.
  - destruct (IH _ _ _ Hin) as (-> & -> & -> & -> & Hres' & Hsame').
    repeat split; try assumption.
    intros H. rewrite <- (Hsame H). apply Hsame'.
    rewrite (Hsame H). exact H.
Qed.

(** With a body factory that always hands out a body, every attempt is sent
    with the body of its own call of the factory. *)
Lemma Run_fresh_body n attempt0 req resp out evs :
  Run tr n attempt0 req resp out evs ->
  forall get,
    Request.GetBody req = Some get ->
    Request.Body req <> None ->
    (forall i, fst (get i) <> None) ->
    forall k rq res,
      In (EvRoundTrip k rq res) evs -> Request.Body rq = fst (get k).
Proof.
  intros HRun. run_cases HRun; intros get Hget Hbody Hfresh k rq res Hin;
    try contradiction;
    try (destruct Hin as [Hin|[]]; discriminate Hin);
    destruct (clone_body_inr _ _ _ _ Hclone) as (_ & _ & Hget1);
    destruct (clone_body_keeps _ _ _ _ Hclone) as (_ & _ & _ & Hfst);
    specialize (Hfst get Hget Hbody);
    In_cases Hclone Hin;
    try (injection Hin as <- <- <-; exact Hfst).
  - apply (IH get) with (res := res); try assumption; [congruence|].
    rewrite Hfst. apply Hfresh.
  - apply (IH get) with (res := res); try assumption; [congruence|].
    rewrite Hfst. apply Hfresh.
Qed.

(** The run panics only on a nil response that comes with a nil error. *)
Lemma Run_panic n attempt0 req resp evs :
  Run tr n attempt0 req resp Panic evs ->
  exists k rq, retryTransport.base tr k rq = (None, None).
Proof.
  intros HRun. remember Panic as out eqn:Hout.
  run_cases HRun; try discriminate Hout; [now exists attempt, req1 | |]; now apply IH.
Qed.

End RunFacts.

(** ** Bounds, exits, waits, requests and response checks *)

Section TransportExtras.

Import http Scenarios.
Local Open Scope Z_scope.

(** X10: attempt bound.  Whatever the base transport, the context and the
    body factory do, [RoundTrip] calls the base transport at most
    [maxRetries + 1] times, and not at all when that number is not
    positive. *)
Theorem round_trips_bounded (tr : retryTransport.t) (req : Request.t) :
  - 2 ^ 63 <= retryTransport.maxRetries tr < 2 ^ 63 ->
  Z.of_nat (round_trips (snd (retryTransport.RoundTrip tr req)))
  <= Z.max 0 (retryTransport.maxRetries tr + 1).
Proof.
  intros Hrange. unfold retryTransport.RoundTrip.
  pose proof (Run_round_trips_le tr _ _ _ _ _ _
                (attempts_Run tr (Z.to_nat (GoInt.add (retryTransport.maxRetries tr) 1))
                   0 req None)) as Hle.
  destruct (iterations_in_range tr Hrange) as [H0 | Hn]; lia.
Qed.

Lemma round_trips_bounded_witness :
  Z.of_nat (round_trips
              (snd (retryTransport.RoundTrip (test_transport (always 503)) post_request)))
  <= Z.max 0 (3 + 1).
Proof.
  apply (round_trips_bounded (test_transport (always 503)) post_request).
  cbn. lia.
Defined.

(** X11: no retry on a status that is not retried.  When a call of the base
    transport answers with such a status, [RoundTrip] returns that very
    response with a nil error; the call is the last thing it does: no close,
    no wait, no further call. *)
Theorem final_status_returned_at_once
    (tr : retryTransport.t) (req : Request.t)
    (k : nat) (rq : Request.t) (r : Response.t) :
  In (EvRoundTrip k rq (Some r, None)) (snd (retryTransport.RoundTrip tr req)) ->
  shouldRetry (Response.StatusCode r) = false ->
  fst (retryTransport.RoundTrip tr req) = Return (Some r, None)
  /\ last_event (snd (retryTransport.RoundTrip tr req))
     = Some (EvRoundTrip k rq (Some r, None))
  /\ round_trips (snd (retryTransport.RoundTrip tr req)) = S k.
Proof.
  intros Hin Hstatus. unfold retryTransport.RoundTrip in *.
  destruct (Run_final_response tr _ _ _ _ _ _
              (attempts_Run tr _ 0 req None) _ _ _ Hin Hstatus)
    as (Hout & Hlast & _ & Hcount).
  repeat split; assumption.
Qed.

Lemma final_status_returned_at_once_witness :
  fst (retryTransport.RoundTrip (test_transport (always 400)) get_request)
  = Return (Some {| Response.StatusCode := 400; Response.Body := 0%nat |}, None)
  /\ round_trips
       (snd (retryTransport.RoundTrip (test_transport (always 400)) get_request))
     = 1%nat.
Proof.
  destruct (final_status_returned_at_once (test_transport (always 400)) get_request
              0 get_request {| Response.StatusCode := 400; Response.Body := 0%nat |})
    as (Hout & _ & Hcount).
  - vm_compute. tauto.
  - reflexivity.
  - split; [exact Hout | exact Hcount].
Defined.

(** X12: a response with a retried status (429, 500 to 504) reaches the
    caller only when the budget is used up: the base transport has then
    been called exactly [maxRetries + 1] times, and the context was not done
    during any wait. *)
Theorem retryable_status_means_exhausted
    (tr : retryTransport.t) (req : Request.t) (r : Response.t) :
  - 2 ^ 63 <= retryTransport.maxRetries tr < 2 ^ 63 ->
  fst (retryTransport.RoundTrip tr req) = Return (Some r, None) ->
  shouldRetry (Response.StatusCode r) = true ->
  Z.of_nat (round_trips (snd (retryTransport.RoundTrip tr req)))
  = retryTransport.maxRetries tr + 1
  /\ forall k d e, ~ In (EvDone k d e) (snd (retryTransport.RoundTrip tr req)).
Proof.
  intros Hrange. unfold retryTransport.RoundTrip.
  destruct (iterations_in_range tr Hrange) as [-> | Hn]; [discriminate|].
  destruct (Z.to_nat (GoInt.add (retryTransport.maxRetries tr) 1)) as [|n] eqn:E;
    [discriminate|].
  intros Hout Hstatus.
  destruct (Run_retryable_returned tr _ _ _ _ _ _
              (attempts_Run tr (S n) 0 req None) ltac:(lia) ltac:(lia) r Hout Hstatus)
    as [Hcount Hdone].
  split; [lia | exact Hdone].
Qed.

Lemma retryable_status_means_exhausted_witness :
  Z.of_nat (round_trips
              (snd (retryTransport.RoundTrip (test_transport (always 429)) get_request)))
  = 3 + 1.
Proof.
  apply (retryable_status_means_exhausted (test_transport (always 429)) get_request
           {| Response.StatusCode := 429; Response.Body := 3%nat |}).
  - cbn. lia.
  - reflexivity.
  - reflexivity.
Defined.

(** X13: body-clone failure.  [RoundTrip] returns the error of a failed
    body clone only when the body factory of the request has failed with
    that error, at the attempt that was about to start: the call of the
    factory is the last thing done, and the base transport has been called
    for the earlier attempts only. *)
Theorem body_clone_failure_is_terminal
    (tr : retryTransport.t) (req : Request.t) (e : error) :
  fst (retryTransport.RoundTrip tr req)
  = Return (None, Some (fmt.Errorf_w "cloning request body: " e)) ->
  exists k get body,
    Request.GetBody req = Some get
    /\ get k = (body, Some e)
    /\ last_event (snd (retryTransport.RoundTrip tr req)) = Some (EvGetBody k)
    /\ round_trips (snd (retryTransport.RoundTrip tr req)) = k.
Proof.
  intros Hout. unfold retryTransport.RoundTrip in *.
  destruct (Run_clone_failure tr _ _ _ _ _ _
              (attempts_Run tr _ 0 req None) e Hout)
    as (k & get & body & Hget & Hk & Hlast & _ & Hcount).
  exists k, get, body. repeat split; try assumption. lia.
Qed.

Lemma body_clone_failure_is_terminal_witness :
  exists k get body,
    Request.GetBody failing_body_request = Some get
    /\ get k = (body, Some (errorString "body is gone"))
    /\ last_event
         (snd (retryTransport.RoundTrip (test_transport (always 500))
                 failing_body_request))
       = Some (EvGetBody k)
    /\ round_trips
         (snd (retryTransport.RoundTrip (test_transport (always 500))
                 failing_body_request))
       = k.
Proof.
  apply (body_clone_failure_is_terminal (test_transport (always 500))
           failing_body_request (errorString "body is gone")).
  reflexivity.
Defined.

Lemma shl1_small (k : nat) :
  2 ^ Z.of_nat k < 2 ^ 63 -> GoInt.shl1 k = 2 ^ Z.of_nat k.
Proof.
  intros H. unfold GoInt.shl1, GoInt.wrap.
  rewrite Z.shiftl_1_l.
  assert (0 < 2 ^ Z.of_nat k) by (apply Z.pow_pos_nonneg; lia).
  change (2 ^ 63) with 9223372036854775808 in *.
  change (2 ^ 64) with 18446744073709551616.
  rewrite Z.mod_small; lia.
Qed.

(** X14: exponential backoff.  Every wait of [RoundTrip], whether the timer
    fires or the context is done first, follows an attempt [k] before the
    last one, and its delay is [baseDelay * 2^k] as long as this product fits
    in a 64-bit duration. *)
Theorem backoff_is_exponential
    (tr : retryTransport.t) (req : Request.t) (k : nat) (d : Z) :
  In (EvTimer k d) (snd (retryTransport.RoundTrip tr req))
  \/ (exists e, In (EvDone k d e) (snd (retryTransport.RoundTrip tr req))) ->
  0 <= retryTransport.baseDelay tr ->
  retryTransport.baseDelay tr * 2 ^ Z.of_nat k < 2 ^ 63 ->
  d = retryTransport.baseDelay tr * 2 ^ Z.of_nat k
  /\ Z.of_nat k < retryTransport.maxRetries tr.
Proof.
  intros Hin Hpos Hfit. unfold retryTransport.RoundTrip in *.
  destruct (Run_waits tr _ _ _ _ _ _ (attempts_Run tr _ 0 req None) k d Hin)
    as [-> Hk].
  split; [|exact Hk].
  unfold retryTransport.delay, GoInt.mul.
  assert (Hpow : 0 < 2 ^ Z.of_nat k) by (apply Z.pow_pos_nonneg; lia).
  destruct (Z.eq_dec (retryTransport.baseDelay tr) 0) as [-> | Hne];
    [reflexivity|].
  rewrite shl1_small by nia.
  unfold GoInt.wrap.
  change (2 ^ 63) with 9223372036854775808 in *.
  change (2 ^ 64) with 18446744073709551616.
  rewrite Z.mod_small; nia.
Qed.

Lemma backoff_is_exponential_witness :
  4000000 = 1000000 * 2 ^ Z.of_nat 2 /\ Z.of_nat 2 < 3.
Proof.
  apply (backoff_is_exponential (test_transport (always 500)) get_request 2 4000000).
  - left. vm_compute. tauto.
  - cbn. lia.
  - cbn. lia.
Defined.

(** X15: from attempt 64 on, [1 << attempt] overflows to zero and the delay
    is zero, whatever the base delay. *)
Theorem delay_overflows_to_zero (tr : retryTransport.t) (k : nat) :
  (64 <= k)%nat -> retryTransport.delay tr k = 0.
Proof.
  intros Hk. unfold retryTransport.delay, GoInt.mul, GoInt.shl1.
  rewrite Z.shiftl_1_l.
  replace (Z.of_nat k) with (64 + (Z.of_nat k - 64)) by lia.
  rewrite Z.pow_add_r by lia.
  assert (Hshl : GoInt.wrap (2 ^ 64 * 2 ^ (Z.of_nat k - 64)) = 0).
  { unfold GoInt.wrap. rewrite Z.add_comm, Z.mul_comm, Z.mod_add by lia.
    reflexivity. }
  rewrite Hshl, Z.mul_0_r. reflexivity.
Qed.

Lemma delay_overflows_to_zero_witness :
  retryTransport.delay (test_transport (always 500)) 64 = 0.
Proof. apply (delay_overflows_to_zero (test_transport (always 500)) 64). lia. Defined.

(** X16: request preservation.  Every request that [RoundTrip] hands to the
    base transport has the method, the URL, the context and the body factory
    of the caller's request, and the event records the answer of the base
    transport to it; when the request has no body factory or no body, it is
    the caller's request itself, at every attempt. *)
Theorem requests_are_preserved
    (tr : retryTransport.t) (req : Request.t)
    (k : nat) (rq : Request.t) (res : Result) :
  In (EvRoundTrip k rq res) (snd (retryTransport.RoundTrip tr req)) ->
  Request.Method rq = Request.Method req
  /\ Request.URL rq = Request.URL req
  /\ Request.Context rq = Request.Context req
  /\ Request.GetBody rq = Request.GetBody req
  /\ retryTransport.base tr k rq = res
  /\ (Request.GetBody req = None \/ Request.Body req = None -> rq = req).
Proof.
  intros Hin. unfold retryTransport.RoundTrip in *.
  exact (Run_requests tr _ _ _ _ _ _ (attempts_Run tr _ 0 req None) _ _ _ Hin).
Qed.

Lemma requests_are_preserved_witness :
  Request.Method (Request.with_Body post_request (Some 2%nat)) = "POST"%string
  /\ Request.URL (Request.with_Body post_request (Some 2%nat)) = "/post"%string.
Proof.
  destruct (requests_are_preserved (test_transport (always 500)) post_request 1
              (Request.with_Body post_request (Some 2%nat))
              (always 500 1%nat post_request))
    as (Hm & Hu & _).
  - vm_compute. tauto.
  - split; [exact Hm | exact Hu].
Defined.

(** X17: body re-materialization.  When the request has a body and a body
    factory that always hands out a body, the request sent at attempt [k]
    carries the body that the factory returned at its call number [k]: a
    fresh body for every attempt, the first one included. *)
Theorem every_attempt_has_fresh_body
    (tr : retryTransport.t) (req : Request.t)
    (get : nat -> option ReadCloser * option error)
    (k : nat) (rq : Request.t) (res : Result) :
  Request.GetBody req = Some get ->
  Request.Body req <> None ->
  (forall i, fst (get i) <> None) ->
  In (EvRoundTrip k rq res) (snd (retryTransport.RoundTrip tr req)) ->
  Request.Body rq = fst (get k).
Proof.
  intros Hget Hbody Hfresh Hin. unfold retryTransport.RoundTrip in *.
  exact (Run_fresh_body tr _ _ _ _ _ _ (attempts_Run tr _ 0 req None)
           get Hget Hbody Hfresh _ _ _ Hin).
Qed.

Lemma every_attempt_has_fresh_body_witness :
  Request.Body (Request.with_Body post_request (Some 2%nat)) = Some 2%nat.
Proof.
  apply (every_attempt_has_fresh_body (test_transport (always 500)) post_request
           (fun n => (Some (S n), None)) 1
           (Request.with_Body post_request (Some 2%nat))
           (always 500 1%nat post_request)).
  - reflexivity.
  - discriminate.
  - discriminate.
  - vm_compute. tauto.
Defined.

(** X18: degenerate retry counts.  With a negative [maxRetries], and with
    the largest 64-bit integer, for which [maxRetries + 1] wraps around, the
    loop has no iteration: [RoundTrip] does nothing and returns a nil
    response with a nil error. *)
Theorem no_attempt_without_iterations (tr : retryTransport.t) (req : Request.t) :
  - 2 ^ 63 <= retryTransport.maxRetries tr < 0
  \/ retryTransport.maxRetries tr = 2 ^ 63 - 1 ->
  retryTransport.RoundTrip tr req = (Return (None, None), []).
Proof.
  intros H. unfold retryTransport.RoundTrip.
  replace (Z.to_nat (GoInt.add (retryTransport.maxRetries tr) 1)) with 0%nat;
    [reflexivity|].
  unfold GoInt.add, GoInt.wrap. destruct H as [H | ->]; [|reflexivity].
  change (2 ^ 63) with 9223372036854775808 in *.
  change (2 ^ 64) with 18446744073709551616.
  rewrite Z.mod_small; lia.
Qed.

Lemma no_attempt_without_iterations_witness :
  retryTransport.RoundTrip
    {| retryTransport.base := always 200;
       retryTransport.maxRetries := -1;
       retryTransport.baseDelay := 1000000 |} get_request
  = (Return (None, None), []).
Proof.
  apply (no_attempt_without_iterations
           {| retryTransport.base := always 200;
              retryTransport.maxRetries := -1;
              retryTransport.baseDelay := 1000000 |} get_request).
  left. cbn. lia.
Defined.

(** X19: [RoundTrip] does not panic as long as the base transport keeps to
    its contract and never returns a nil response with a nil error. *)
Theorem no_panic_with_lawful_base (tr : retryTransport.t) (req : Request.t) :
  (forall k rq, retryTransport.base tr k rq <> (None, None)) ->
  fst (retryTransport.RoundTrip tr req) <> Panic.
Proof.
  intros Hbase Hout. unfold retryTransport.RoundTrip in *.
  pose proof (attempts_Run tr (Z.to_nat (GoInt.add (retryTransport.maxRetries tr) 1))
                0 req None) as HRun.
  rewrite Hout in HRun.
  destruct (Run_panic tr _ _ _ _ _ HRun) as (k & rq & H).
  exact (Hbase k rq H).
Qed.

Lemma no_panic_with_lawful_base_witness :
  fst (retryTransport.RoundTrip (test_transport refusing) get_request) <> Panic.
Proof.
  apply (no_panic_with_lawful_base (test_transport refusing) get_request).
  intros k rq. discriminate.
Defined.

Lemma statusMessage_nonempty (code : Z) : statusMessage code <> EmptyString.
Proof.
  unfold statusMessage.
  repeat match goal with
         | |- context [if ?b then _ else _] => destruct b
         end; discriminate.
Qed.

(** X20: response checks.  [checkImageResponse] and [checkJSONResponse]
    accept exactly the statuses from 200 to 299; for any other status both
    return an error that carries the status of the response and a message
    that is not empty, whatever the body holds. *)
Theorem check_response_errors
    (decode : ReadCloser -> option string) (resp : Response.t) :
  (checkImageResponse resp = None <-> 200 <= Response.StatusCode resp < 300)
  /\ (checkJSONResponse decode resp = None <-> 200 <= Response.StatusCode resp < 300)
  /\ (forall e,
         checkImageResponse resp = Some e \/ checkJSONResponse decode resp = Some e ->
         Error.StatusCode e = Response.StatusCode resp
         /\ Error.Message e <> EmptyString).
Proof.
  unfold checkImageResponse, checkJSONResponse.
  destruct ((Response.StatusCode resp >=? 200) && (Response.StatusCode resp <? 300))
    eqn:Hok.
  - apply andb_prop in Hok as [H1%Z.geb_le H2%Z.ltb_lt].
    split; [split; [lia | reflexivity]|].
    split; [split; [lia | reflexivity]|].
    intros e [H|H]; discriminate H.
  - assert (Hout : ~ 200 <= Response.StatusCode resp < 300).
    { intros [H1 H2]. apply Z.geb_le in H1. apply Z.ltb_lt in H2.
      rewrite H1, H2 in Hok. discriminate Hok. }
    split; [split; [discriminate | contradiction]|].
    split.
    + split; [|contradiction].
      destruct (decode (Response.Body resp)) as [[|c msg]|]; discriminate.
    + intros e [H | H].
      * injection H as <-. cbn [Error.StatusCode Error.Message].
        split; [reflexivity | apply statusMessage_nonempty].
      * destruct (decode (Response.Body resp)) as [[|c msg]|];
          injection H as <-; cbn [Error.StatusCode Error.Message];
          split; try reflexivity; try apply statusMessage_nonempty; discriminate.
Qed.

(** X21: the statuses that the transport retries are never accepted by the
    response checks, and the statuses that the checks accept are never
    retried: a response that is retried until the budget is used up reaches
    the caller as an error. *)
Theorem retried_status_is_never_accepted
    (decode : ReadCloser -> option string) (resp : Response.t) :
  (shouldRetry (Response.StatusCode resp) = true ->
   checkImageResponse resp <> None /\ checkJSONResponse decode resp <> None)
  /\ (checkImageResponse resp = None \/ checkJSONResponse decode resp = None ->
      shouldRetry (Response.StatusCode resp) = false).
Proof.
  assert (Hdisj : (Response.StatusCode resp >=? 200) && (Response.StatusCode resp <? 300)
                  = true -> shouldRetry (Response.StatusCode resp) = false).
  { intros [H1%Z.geb_le H2%Z.ltb_lt]%andb_prop.
    unfold shouldRetry, StatusTooManyRequests, StatusInternalServerError,
      StatusGatewayTimeout.
    apply orb_false_intro; [apply Z.eqb_neq; lia|].
    apply andb_false_intro1. rewrite Z.geb_leb. apply Z.leb_gt. lia. }
  unfold checkImageResponse, checkJSONResponse.
  destruct ((Response.StatusCode resp >=? 200) && (Response.StatusCode resp <? 300))
    eqn:Hok.
  - rewrite (Hdisj eq_refl). split; [discriminate | reflexivity].
  - split.
    + intros _. split; [discriminate|].
      destruct (decode (Response.Body resp)) as [[|c msg]|]; discriminate.
    + intros [H|H]; [discriminate H|].
      destruct (decode (Response.Body resp)) as [[|c msg]|]; discriminate H.
Qed.

End TransportExtras.
